(** * Data-lake ACL reconciliation: acls/manage_datalake_acls.py

    A shallow embedding of the reconciliation code and the properties
    the specification states about it.

    Python [str] values are modelled as [string]; the dictionaries of the
    program ([permissions], [env_groups], [acl_dict]) as [gmap string string].
    The two services the program talks to are outside the repository:
    - the identity directory (Microsoft Graph) is a function from a display
      name to the list of matching object ids, [None] when the query raises;
    - the storage service is a finite map from (account, container, path)
      to the ACL text of that directory.  A directory that is not in the
      map answers a read with [ResourceNotFoundError]; a created directory
      starts with the empty ACL text, as the program assumes; a write
      replaces the ACL text of the addressed directory.  Propagation to
      descendants and transport failures are not part of the model. *)

From Stdlib Require Import String Ascii List Arith ZArith Bool Lia.
From stdpp Require Import gmap strings list fin_maps.

Open Scope string_scope.
Open Scope list_scope.

(** ** Python string primitives used by the program *)

Module PyStr.

(** [s.split(c)] for a one-character separator. *)
Fixpoint split (c : ascii) (s : string) : list string :=
  match s with
  | EmptyString => [EmptyString]
  | String a s' =>
      if Ascii.eqb a c then EmptyString :: split c s'
      else match split c s' with
           | x :: xs => String a x :: xs
           | [] => [String a EmptyString]
           end
  end.

(** [sep.join(l)] for a one-character separator. *)
Definition join (c : ascii) (l : list string) : string :=
  String.concat (String c EmptyString) l.

(** [s.startswith(p)]. *)
Fixpoint startswith (s p : string) : bool :=
  match p, s with
  | EmptyString, _ => true
  | String b p', String a s' => Ascii.eqb a b && startswith s' p'
  | String _ _, EmptyString => false
  end.

(** [s.lstrip(c)], [s.rstrip(c)] and [s.strip(c)] for one character. *)
Fixpoint lstrip (c : ascii) (s : string) : string :=
  match s with
  | EmptyString => EmptyString
  | String a s' => if Ascii.eqb a c then lstrip c s' else s
  end.

Fixpoint rstrip (c : ascii) (s : string) : string :=
  match s with
  | EmptyString => EmptyString
  | String a s' =>
      match rstrip c s' with
      | EmptyString => if Ascii.eqb a c then EmptyString else String a EmptyString
      | r => String a r
      end
  end.

Definition strip (c : ascii) (s : string) : string := rstrip c (lstrip c s).

(** [s.upper()] and [s.lower()]; only the ASCII letters change case, which
    is all the comparisons of the program can observe. *)
Definition upper_char (a : ascii) : ascii :=
  let n := nat_of_ascii a in
  if ((97 <=? n) && (n <=? 122))%nat then ascii_of_nat (n - 32) else a.

Definition lower_char (a : ascii) : ascii :=
  let n := nat_of_ascii a in
  if ((65 <=? n) && (n <=? 90))%nat then ascii_of_nat (n + 32) else a.

Fixpoint map_chars (f : ascii → ascii) (s : string) : string :=
  match s with
  | EmptyString => EmptyString
  | String a s' => String (f a) (map_chars f s')
  end.

Definition upper : string → string := map_chars upper_char.
Definition lower : string → string := map_chars lower_char.

(** Truthiness of a string: [not s] holds exactly for the empty string. *)
Definition is_empty (s : string) : bool :=
  match s with EmptyString => true | String _ _ => false end.

(** [l[a:b]] for non-negative bounds. *)
Definition slice {A} (a b : nat) (l : list A) : list A := firstn (b - a) (skipn a l).

(** The character [c] does not occur in [s]. *)
Fixpoint char_free (c : ascii) (s : string) : bool :=
  match s with
  | EmptyString => true
  | String a s' => negb (Ascii.eqb a c) && char_free c s'
  end.

End PyStr.

Import PyStr.

(** ** The reconciliation code *)

(** One row of the input CSV ([csv.DictReader] rows hold strings). *)
Record Row := mkRow {
  environment : string;
  storage : string;
  path : string;
  group_name : string;
  permission : string;
  force_update : string;
  force_propagation : string
}.

(** [mode] argument of [set_access_control_recursive]. *)
Inductive Mode := ModeSet | ModeModify.

(** Calls a request issues to the storage service and to the backup file,
    in the order they are issued. *)
Inductive Call :=
| BackupRows (p : string) (rows : list (list string))
| BackupMissing (p : string)
| CreateDirectory (p : string)
| SetAccessControlRecursive (p acl : string) (mode : Mode).

(** How a request ends, as told by its last log line. *)
Inductive Outcome :=
| ClientInitFailed
| SkippedInvalidGroup
| SkippedInvalidEnvironmentGroup
| Processed.

(** State shared by the requests of a batch. *)
Record World := mkWorld {
  w_storage : gmap (string * string * string) string;
  w_service_clients : gset string;
  w_backup_file : list (list string)
}.

Definition parse_permission (permission : string) : string :=
  let permissions : gmap string string := {[ "R" := "r-x"; "W" := "rwx" ]} in
  default "r-x" (permissions !! upper permission).

Definition parse_acls (acl_string : string) : gmap string string :=
  if is_empty acl_string then ∅
  else
    foldl (λ (acl_dict : gmap string string) entry,
             if startswith entry "group:" && (4 <=? length (split ":" entry))%nat
             then
               let parts := split ":" entry in
               let group_id := nth 1 parts "" in
               let permissions := nth 3 parts "" in
               <[group_id := permissions]> acl_dict
             else acl_dict)
          ∅ (split "," acl_string).

(** Lines 167-172 and 195-200: the ACL text committed for [current_acls]
    when the entry of [group_object_id] is set to [acl_permission]. *)
Definition updated_acls (current_acls group_object_id acl_permission : string) : string :=
  let new_acl := "group:" +:+ group_object_id +:+ ":" +:+ acl_permission in
  if is_empty current_acls then new_acl
  else
    let existing_acls :=
      List.filter (λ acl, negb (startswith acl ("group:" +:+ group_object_id +:+ ":")))
                  (split "," current_acls) in
    match existing_acls with
    | [] => new_acl
    | _ => join "," (existing_acls ++ [new_acl])
    end.

(** [path or 'root']. *)
Definition or_root (p : string) : string := if is_empty p then "root" else p.

(** Rows [backup_acls_to_csv] writes for one path with ACL text
    [current_acls]. *)
Definition backup_rows (storage_account_name container_name p current_acls : string)
  : list (list string) :=
  flat_map (λ acl,
              if startswith acl "group:" && (4 <=? length (split ":" acl))%nat
              then
                let parts := split ":" acl in
                [[storage_account_name; container_name; or_root p; nth 1 parts ""; nth 3 parts ""]]
              else [])
           (if is_empty current_acls then [] else split "," current_acls).

Section Reconciliation.

(** The Graph query [displayName eq name]: the ids of the groups found,
    [None] when the query raises. *)
Variable graph_client : string → option (list string).

(** Whether a [DataLakeServiceClient] can be built for an account. *)
Variable client_ok : string → bool.

Definition get_azure_ad_group_object_id (group_name : string) : option string :=
  match graph_client group_name with
  | Some (id :: _) => Some id
  | _ => None
  end.

Definition get_environment_group (environment : string) : option string :=
  let env_groups : gmap string string :=
    {[ "dev" := "grupo_dev"; "pre" := "grupo_pre"; "pro" := "grupo_pro" ]} in
  let group_name := default "grupo_dev" (env_groups !! lower environment) in
  get_azure_ad_group_object_id group_name.

(** [if not group_object_id]: both [None] and the empty id are rejected. *)
Definition truthy (o : option string) : option string :=
  match o with
  | Some id => if is_empty id then None else Some id
  | None => None
  end.

Definition header : list string :=
  ["storage"; "container"; "path"; "group_id"; "permissions"].

Fixpoint backup_paths (st : gmap (string * string * string) string)
    (storage_account_name container_name : string) (paths : list string)
  : list (list string) * list Call :=
  match paths with
  | [] => ([], [])
  | p :: rest =>
      let '(rows', calls') := backup_paths st storage_account_name container_name rest in
      match st !! (storage_account_name, container_name, p) with
      | Some current_acls =>
          let rows := backup_rows storage_account_name container_name p current_acls in
          (rows ++ rows', BackupRows p rows :: calls')
      | None => (rows', BackupMissing p :: calls')
      end
  end.

Definition backup_acls_to_csv (st : gmap (string * string * string) string)
    (storage_account_name container_name : string) (paths : list string)
    (backup_file : list (list string)) : list (list string) * list Call :=
  let file := match backup_file with [] => [header] | _ => backup_file end in
  let '(rows, calls) := backup_paths st storage_account_name container_name paths in
  (file ++ rows, calls).

(** Lines 149-179: the target directory. *)
Definition update_target (st : gmap (string * string * string) string)
    (storage_account_name container_name relative_path : string)
    (group_object_id permission acl_permission : string)
    (force_update force_propagation : bool)
  : gmap (string * string * string) string * list Call :=
  let key := (storage_account_name, container_name, relative_path) in
  let '(st1, current_acls, created) :=
    match st !! key with
    | Some acl => (st, acl, [])
    | None => (<[key := ""]> st, "", [CreateDirectory relative_path])
    end in
  let acl_dict := parse_acls current_acls in
  let current_perm := default "" (acl_dict !! group_object_id) in
  let should_update :=
    force_update || is_empty current_perm
    || (String.eqb permission "W" && negb (String.eqb current_perm "rwx")) in
  if should_update then
    let acl := updated_acls current_acls group_object_id acl_permission in
    let mode := if force_propagation then ModeSet else ModeModify in
    (<[key := acl]> st1, created ++ [SetAccessControlRecursive relative_path acl mode])
  else (st1, created).

(** Lines 182-207: the parent directories, in order. *)
Fixpoint update_parents (st : gmap (string * string * string) string)
    (storage_account_name container_name : string) (parent_paths : list string)
    (env_group_object_id : string) (force_update : bool)
  : gmap (string * string * string) string * list Call :=
  match parent_paths with
  | [] => (st, [])
  | parent_path :: rest =>
      let key := (storage_account_name, container_name, parent_path) in
      let '(st1, parent_acls, created) :=
        match st !! key with
        | Some acl => (st, acl, [])
        | None => (<[key := ""]> st, "", [CreateDirectory parent_path])
        end in
      let parent_acl_dict := parse_acls parent_acls in
      let '(st2, calls) :=
        if negb (bool_decide (is_Some (parent_acl_dict !! env_group_object_id))) || force_update
        then
          let acl := updated_acls parent_acls env_group_object_id "--x" in
          (<[key := acl]> st1, created ++ [SetAccessControlRecursive parent_path acl ModeSet])
        else (st1, created) in
      let '(st3, calls') :=
        update_parents st2 storage_account_name container_name rest
                       env_group_object_id force_update in
      (st3, calls ++ calls')
  end.

(** Line 122: the segments of the request path. *)
Definition path_parts_of (path : string) : list string := split "/" (strip "/" path).

Definition container_name_of (path_parts : list string) : string :=
  match path_parts with
  | c :: _ => c
  | [] => "data"
  end.

Definition relative_path_of (path_parts : list string) : string :=
  if (1 <? length path_parts)%nat then join "/" (skipn 1 path_parts) else "".

Definition parent_paths_of (path_parts : list string) : list string :=
  if (2 <? length path_parts)%nat
  then map (λ i, join "/" (slice 1 (i + 1) path_parts)) (seq 1 (length path_parts - 1 - 1))
  else [].

Definition apply_acls_to_path (row : Row) (w : World) : Outcome * World * list Call :=
  let storage_account_name := storage row in
  let force_update := String.eqb (lower (force_update row)) "true" in
  let force_propagation := String.eqb (lower (force_propagation row)) "true" in
  let clients :=
    if bool_decide (storage_account_name ∈ w_service_clients w)
    then Some (w_service_clients w)
    else if client_ok storage_account_name
         then Some ({[storage_account_name]} ∪ w_service_clients w)
         else None in
  match clients with
  | None => (ClientInitFailed, w, [])
  | Some service_clients =>
      let w1 := mkWorld (w_storage w) service_clients (w_backup_file w) in
      match truthy (get_azure_ad_group_object_id (group_name row)) with
      | None => (SkippedInvalidGroup, w1, [])
      | Some group_object_id =>
          let path_parts := path_parts_of (path row) in
          let container_name := container_name_of path_parts in
          let relative_path := relative_path_of path_parts in
          let acl_permission := parse_permission (permission row) in
          match truthy (get_environment_group (environment row)) with
          | None => (SkippedInvalidEnvironmentGroup, w1, [])
          | Some env_group_object_id =>
              let parent_paths := parent_paths_of path_parts in
              let paths_to_backup :=
                if is_empty relative_path then parent_paths
                else relative_path :: parent_paths in
              let '(backup_file, calls_b) :=
                match paths_to_backup with
                | [] => (w_backup_file w1, [])
                | _ => backup_acls_to_csv (w_storage w1) storage_account_name
                                          container_name paths_to_backup (w_backup_file w1)
                end in
              let '(st1, calls_t) :=
                update_target (w_storage w1) storage_account_name container_name
                              relative_path group_object_id (permission row)
                              acl_permission force_update force_propagation in
              let '(st2, calls_p) :=
                update_parents st1 storage_account_name container_name parent_paths
                               env_group_object_id force_update in
              (Processed, mkWorld st2 service_clients backup_file,
               calls_b ++ calls_t ++ calls_p)
          end
      end
  end.

End Reconciliation.

(** ** The batch driver *)

(** Line 231. *)
Definition required_columns : list string :=
  ["environment"; "storage"; "path"; "group_name"; "permission";
   "force_update"; "force_propagation"].

(** Line 234: [all(col in row for col in required_columns)] on a row of
    [csv.DictReader], a dictionary from column names to cells.  Cells are
    strings here: a data line shorter than the header, whose missing cells
    [DictReader] fills with [None], is outside the model. *)
Definition has_required_columns (row : gmap string string) : bool :=
  forallb (λ col, bool_decide (is_Some (row !! col))) required_columns.

(** Lines 95-99: the cells [apply_acls_to_path] takes from a row. *)
Definition row_of_dict (row : gmap string string) : Row :=
  mkRow (default "" (row !! "environment"))
        (default "" (row !! "storage"))
        (default "" (row !! "path"))
        (default "" (row !! "group_name"))
        (default "" (row !! "permission"))
        (default "" (row !! "force_update"))
        (default "" (row !! "force_propagation")).

Section Batch.

Variable graph_client : string → option (list string).
Variable client_ok : string → bool.

(** Lines 239-243.  [apply_acls_to_path] never awaits, so the tasks that
    [gather] drives run to their end one after the other, in the order
    they were created: the order of the rows. *)
Fixpoint run_tasks (rows : list (gmap string string)) (w : World)
  : World * list (Outcome * list Call) :=
  match rows with
  | [] => (w, [])
  | row :: rest =>
      let '(outcome, w1, calls) :=
        apply_acls_to_path graph_client client_ok (row_of_dict row) w in
      let '(w2, results) := run_tasks rest w1 in
      (w2, (outcome, calls) :: results)
  end.

(** Lines 214-243: [process_csv] on the rows read from the CSV file, the
    storage as the batch finds it and the content of the backup file of
    that name, empty for a fresh one.  The service clients start empty. *)
Definition process_csv (csv_rows : list (gmap string string))
    (st : gmap (string * string * string) string) (backup_file : list (list string))
  : World * list (Outcome * list Call) :=
  let rows := List.filter has_required_columns csv_rows in
  run_tasks rows (mkWorld st ∅ backup_file).

End Batch.

(** ** Vocabulary for the properties *)

(** The comma-separated entries of an ACL text; the program treats the
    empty text as having none ([if not acl_string], [if current_acls]). *)
Definition entries (acl : string) : list string :=
  if is_empty acl then [] else split "," acl.

(** The test of [parse_acls] (line 62) and of the backup (line 83). *)
Definition kept (entry : string) : bool :=
  startswith entry "group:" && (4 <=? length (split ":" entry))%nat.

(** The entry the program writes (lines 167 and 195). *)
Definition new_acl (group_object_id acl_permission : string) : string :=
  "group:" +:+ group_object_id +:+ ":" +:+ acl_permission.

(** The prefix by which the program recognises the entries it replaces
    (lines 171 and 199). *)
Definition entry_prefix (group_object_id : string) : string :=
  "group:" +:+ group_object_id +:+ ":".

(** One iteration of the loop of [parse_acls]. *)
Definition parse_step (acl_dict : gmap string string) (entry : string) : gmap string string :=
  if kept entry
  then <[nth 1 (split ":" entry) "" := nth 3 (split ":" entry) ""]> acl_dict
  else acl_dict.

(** An entry as the specification describes the ones the codec keeps:
    first field the group scope token, at least four fields; it binds the
    identity in its second field to the triplet in its fourth. *)
Definition binds (entry group_id permissions : string) : Prop :=
  hd "" (split ":" entry) = "group" ∧
  (4 ≤ length (split ":" entry))%nat ∧
  nth 1 (split ":" entry) "" = group_id ∧
  nth 3 (split ":" entry) "" = permissions.

(** The group identity an entry [scope:identity:permission...] speaks
    for: its second field when the first is the group scope token and a
    permission field follows. *)
Definition entry_identity (entry : string) : option string :=
  match split ":" entry with
  | scope :: identity :: _ :: _ => if String.eqb scope "group" then Some identity else None
  | _ => None
  end.

(** At most one entry per group identity in an ACL text. *)
Definition at_most_one_per_identity (acl : string) : Prop :=
  ∀ g, (length (List.filter (λ e, bool_decide (entry_identity e = Some g)) (entries acl)) ≤ 1)%nat.

(** An identifier that can stand in an ACL entry: no [,] and no [:]. *)
Definition acl_safe (s : string) : bool := char_free "," s && char_free ":" s.

(** Merging a sequence of (identity, permission) entries, one after the
    other, with the program's merge. *)
Definition merge_all (acl : string) (merges : list (string * string)) : string :=
  foldl (λ acc m, updated_acls acc m.1 m.2) acl merges.

(** Line 164. *)
Definition target_should_update (current_acls group_object_id permission : string)
    (force_update : bool) : bool :=
  let current_perm := default "" (parse_acls current_acls !! group_object_id) in
  force_update || is_empty current_perm
  || (String.eqb permission "W" && negb (String.eqb current_perm "rwx")).

(** Line 194. *)
Definition parent_should_update (parent_acls env_group_object_id : string)
    (force_update : bool) : bool :=
  negb (bool_decide (is_Some (parse_acls parent_acls !! env_group_object_id))) || force_update.

(** ACL text of the target after the request, from what it held before
    ([None]: the directory did not exist). *)
Definition target_value (group_object_id permission : string) (force_update : bool)
    (before : option string) : string :=
  let current_acls := default "" before in
  if target_should_update current_acls group_object_id permission force_update
  then updated_acls current_acls group_object_id (parse_permission permission)
  else current_acls.

(** ACL text of a parent after the request. *)
Definition parent_value (env_group_object_id : string) (force_update : bool)
    (before : option string) : string :=
  let parent_acls := default "" before in
  if parent_should_update parent_acls env_group_object_id force_update
  then updated_acls parent_acls env_group_object_id "--x"
  else parent_acls.

Definition created_calls (before : option string) (p : string) : list Call :=
  match before with Some _ => [] | None => [CreateDirectory p] end.

(** *** What a request derives from its row *)

Definition force_update_of (row : Row) : bool :=
  String.eqb (lower (force_update row)) "true".

Definition force_propagation_of (row : Row) : bool :=
  String.eqb (lower (force_propagation row)) "true".

Definition container_of (row : Row) : string := container_name_of (path_parts_of (path row)).
Definition relative_of (row : Row) : string := relative_path_of (path_parts_of (path row)).
Definition parents_of (row : Row) : list string := parent_paths_of (path_parts_of (path row)).

Definition key_of (row : Row) (p : string) : string * string * string :=
  (storage row, container_of row, p).

Definition paths_to_backup_of (row : Row) : list string :=
  if is_empty (relative_of row) then parents_of row else relative_of row :: parents_of row.

(** The service client of the row's account is cached or can be built. *)
Definition client_ready (client_ok : string → bool) (row : Row) (w : World) : bool :=
  bool_decide (storage row ∈ w_service_clients w) || client_ok (storage row).

(** The request gets past client set-up and both identity look-ups. *)
Definition resolves (graph_client : string → option (list string)) (client_ok : string → bool)
    (row : Row) (w : World) (group_object_id env_group_object_id : string) : Prop :=
  client_ready client_ok row w = true ∧
  truthy (get_azure_ad_group_object_id graph_client (group_name row)) = Some group_object_id ∧
  truthy (get_environment_group graph_client (environment row)) = Some env_group_object_id.

(** ACL text the request reads on its target ([''] for a new directory)
    and the triplet [current_perm] it finds there for the group. *)
Definition current_acls_of (row : Row) (w : World) : string :=
  default "" (w_storage w !! key_of row (relative_of row)).

Definition current_perm_of (row : Row) (w : World) (group_object_id : string) : string :=
  default "" (parse_acls (current_acls_of row w) !! group_object_id).

Definition outcome_of (r : Outcome * World * list Call) : Outcome := r.1.1.
Definition world_of (r : Outcome * World * list Call) : World := r.1.2.
Definition calls_of (r : Outcome * World * list Call) : list Call := r.2.

(** A write was issued on path [p]. *)
Definition written (calls : list Call) (p : string) : Prop :=
  ∃ acl mode, In (SetAccessControlRecursive p acl mode) calls.

(** A call that changes the storage. *)
Definition is_mutation (call : Call) : bool :=
  match call with
  | CreateDirectory _ | SetAccessControlRecursive _ _ _ => true
  | BackupRows _ _ | BackupMissing _ => false
  end.

(** *** The three phases of a request that resolves *)

Definition backup_phase (row : Row) (w : World) : list Call :=
  (backup_paths (w_storage w) (storage row) (container_of row) (paths_to_backup_of row)).2.

Definition target_phase (row : Row) (w : World) (group_object_id : string)
  : gmap (string * string * string) string * list Call :=
  update_target (w_storage w) (storage row) (container_of row) (relative_of row)
    group_object_id (permission row) (parse_permission (permission row))
    (force_update_of row) (force_propagation_of row).

Definition parents_phase (row : Row) (w : World) (group_object_id env_group_object_id : string)
  : gmap (string * string * string) string * list Call :=
  update_parents (target_phase row w group_object_id).1 (storage row) (container_of row)
    (parents_of row) env_group_object_id (force_update_of row).

(** The backup file once the backup phase is over: untouched when there
    is no path to back up. *)
Definition backup_file_after (row : Row) (w : World) : list (list string) :=
  match paths_to_backup_of row with
  | [] => w_backup_file w
  | paths => (backup_acls_to_csv (w_storage w) (storage row) (container_of row) paths
                                 (w_backup_file w)).1
  end.

(** Storage a request leaves behind once a service client is at hand. *)
Definition reconciled (graph_client : string → option (list string)) (row : Row)
    (st : gmap (string * string * string) string) : gmap (string * string * string) string :=
  match truthy (get_azure_ad_group_object_id graph_client (group_name row)),
        truthy (get_environment_group graph_client (environment row)) with
  | Some group_object_id, Some env_group_object_id =>
      (parents_phase row (mkWorld st ∅ []) group_object_id env_group_object_id).1
  | _, _ => st
  end.

(** *** The update policy *)

(** As the specification words it: forced, or no entry for the group, or
    a write request on a grant that is not [rwx]. *)
Definition update_policy_stated (row : Row) (w : World) (group_object_id : string) : Prop :=
  force_update_of row = true ∨
  parse_acls (current_acls_of row w) !! group_object_id = None ∨
  (permission row = "W" ∧ current_perm_of row w group_object_id ≠ "rwx").

(** As line 164 decides: an entry whose triplet is empty counts as no
    entry. *)
Definition update_policy (row : Row) (w : World) (group_object_id : string) : Prop :=
  force_update_of row = true ∨
  current_perm_of row w group_object_id = "" ∨
  (permission row = "W" ∧ current_perm_of row w group_object_id ≠ "rwx").

(** *** Read requests *)


(** *** Backup before write *)



(** *** Identity directory *)

(** Object ids handed out by the directory never contain the entry
    separator of the ACL text. *)
Definition ids_comma_free (graph_client : string → option (list string)) : Prop :=
  ∀ name id, get_azure_ad_group_object_id graph_client name = Some id →
             char_free "," id = true.

(** *** Sample inputs *)

Definition sample_directory (name : string) : option (list string) :=
  if String.eqb name "analysts" then Some ["a1"]
  else if String.eqb name "grupo_pro" then Some ["p1"]
  else if String.eqb name "grupo_dev" then Some ["d1"]
  else Some [].

Definition always_ok (account : string) : bool := true.

Definition empty_world : World := mkWorld ∅ ∅ [].

Definition world_with (p acl : string) : World :=
  mkWorld {[ ("acct1", "data", p) := acl ]} ∅ [].

Definition sample_row (path permission force_update : string) : Row :=
  mkRow "pro" "acct1" path "analysts" permission force_update "false".

Definition unknown_group_row : Row :=
  mkRow "pro" "acct1" "data/team/reports" "nobody" "W" "false" "false".


(** ** Vocabulary for further properties of the code *)

(** The service clients once a request is over, when one was at hand or
    could be built. *)
Definition clients_after (row : Row) (w : World) : gset string :=
  if bool_decide (storage row ∈ w_service_clients w)
  then w_service_clients w
  else {[storage row]} ∪ w_service_clients w.

(** The directories a request may touch: its target and its ancestors,
    in its own account and container. *)
Definition touches (row : Row) (k : string * string * string) : Prop :=
  k = key_of row (relative_of row) ∨ ∃ p, In p (parents_of row) ∧ k = key_of row p.


(** A dictionary row with the seven cells of a request. *)
Definition dict_of_row (row : Row) : gmap string string :=
  {[ "environment" := environment row; "storage" := storage row; "path" := path row;
     "group_name" := group_name row; "permission" := permission row;
     "force_update" := force_update row; "force_propagation" := force_propagation row ]}.



(** The row with its path cell replaced. *)
Definition with_path (row : Row) (path : string) : Row :=
  mkRow (environment row) (storage row) path (group_name row) (permission row)
        (force_update row) (force_propagation row).

(** A run of [n] slashes. *)
Fixpoint slashes (n : nat) : string :=
  match n with
  | O => ""
  | S n' => String "/" (slashes n')
  end.

(** [s.endswith(c)] for one character. *)
Fixpoint endswith_char (c : ascii) (s : string) : bool :=
  match s with
  | EmptyString => false
  | String a EmptyString => Ascii.eqb a c
  | String _ s' => endswith_char c s'
  end.





(** Sample dictionary rows: a complete one and one without its path. *)
Definition sample_dict : gmap string string :=
  dict_of_row (sample_row "data/team" "W" "false").

(** ** Facts about the string primitives *)

Module PyStrFacts.

Lemma ascii_eqb_true a b : Ascii.eqb a b = true ↔ a = b.
Proof. apply Ascii.eqb_eq. Qed.

Lemma split_not_nil c s : split c s ≠ [].
Proof.
  destruct s as [|a s]; simpl; [discriminate|].
  destruct (Ascii.eqb a c); [discriminate|].
  destruct (split c s); discriminate.
Qed.

Lemma split_cons_char c a s :
  Ascii.eqb a c = false →
  split c (String a s) = String a (hd "" (split c s)) :: tl (split c s).
Proof.
  intros Hac. simpl. rewrite Hac.
  destruct (split c s) as [|x xs] eqn:Hs; [|reflexivity].
  exfalso. eapply split_not_nil; eauto.
Qed.

Lemma app_empty_str (t : string) : "" +:+ t = t.
Proof. reflexivity. Qed.

Lemma app_cons_str a (s t : string) : String a s +:+ t = String a (s +:+ t).
Proof. reflexivity. Qed.

Lemma app_assoc_str (s t u : string) : (s +:+ t) +:+ u = s +:+ (t +:+ u).
Proof.
  induction s as [|a s IH]; [reflexivity|].
  rewrite !app_cons_str. f_equal. exact IH.
Qed.

Lemma app_inv_head_str (s t u : string) : s +:+ t = s +:+ u → t = u.
Proof.
  induction s as [|a s IH]; [done|].
  rewrite !app_cons_str. intros [=]. auto.
Qed.

Lemma char_free_app c s t : char_free c (s +:+ t) = char_free c s && char_free c t.
Proof.
  induction s as [|a s IH]; [reflexivity|].
  rewrite app_cons_str. simpl. rewrite IH. apply andb_assoc.
Qed.

Lemma split_char_free c s : char_free c s = true → split c s = [s].
Proof.
  induction s as [|a s IH]; simpl; [reflexivity|].
  intros [Ha Hs]%andb_true_iff. apply negb_true_iff in Ha.
  rewrite Ha, (IH Hs). reflexivity.
Qed.

Lemma split_app_sep c s t :
  char_free c s = true → split c (s +:+ String c t) = s :: split c t.
Proof.
  induction s as [|a s IH].
  - intros _. rewrite app_empty_str. simpl. rewrite Ascii.eqb_refl. reflexivity.
  - intros [Ha Hs]%andb_true_iff. apply negb_true_iff in Ha.
    rewrite app_cons_str. simpl. rewrite Ha, (IH Hs). reflexivity.
Qed.

Lemma split_all_char_free c s : Forall (λ x, char_free c x = true) (split c s).
Proof.
  induction s as [|a s IH]; simpl.
  - repeat constructor.
  - destruct (Ascii.eqb a c) eqn:Hac.
    + constructor; [reflexivity|exact IH].
    + destruct (split c s) as [|x xs]; [repeat constructor; simpl; by rewrite Hac|].
      inversion IH; subst. constructor; [|assumption].
      simpl. rewrite Hac. assumption.
Qed.

Lemma join_cons c x y l : join c (x :: y :: l) = x +:+ String c (join c (y :: l)).
Proof. reflexivity. Qed.

Lemma join_split c s : join c (split c s) = s.
Proof.
  induction s as [|a s IH]; [reflexivity|].
  pose proof (split_not_nil c s) as Hne.
  destruct (Ascii.eqb a c) eqn:Hac.
  - simpl. rewrite Hac. apply ascii_eqb_true in Hac. subst a.
    destruct (split c s) as [|x xs]; [done|].
    rewrite join_cons, IH. reflexivity.
  - rewrite split_cons_char by assumption.
    destruct (split c s) as [|x xs]; [done|]. simpl hd. simpl tl.
    destruct xs as [|y ys].
    + unfold join in *. simpl in *. by rewrite IH.
    + rewrite join_cons. rewrite join_cons in IH. rewrite <- IH. reflexivity.
Qed.

Lemma split_join c l :
  l ≠ [] → Forall (λ x, char_free c x = true) l → split c (join c l) = l.
Proof.
  induction l as [|x l IH]; [done|].
  intros _ Hall. inversion Hall as [|? ? Hx Hl]; subst.
  destruct l as [|y l].
  - unfold join. simpl. by apply split_char_free.
  - rewrite join_cons, split_app_sep by assumption.
    f_equal. by apply IH.
Qed.

Lemma startswith_app p r : startswith (p +:+ r) p = true.
Proof.
  induction p as [|b p IH]; [by destruct r|].
  rewrite app_cons_str. simpl. by rewrite Ascii.eqb_refl, IH.
Qed.

Lemma startswith_inv s p : startswith s p = true → ∃ r, s = p +:+ r.
Proof.
  revert s. induction p as [|b p IH]; intros s; simpl.
  - intros _. by exists s.
  - destruct s as [|a s]; [done|].
    intros [Hab Hs]%andb_true_iff. apply ascii_eqb_true in Hab. subst b.
    destruct (IH _ Hs) as [r ->]. by exists r.
Qed.

Lemma startswith_iff s p : startswith s p = true ↔ ∃ r, s = p +:+ r.
Proof.
  split; [apply startswith_inv|]. intros [r ->]. apply startswith_app.
Qed.

Lemma startswith_app_assoc s p q :
  startswith s (p +:+ q) = true ↔ ∃ r, s = p +:+ r ∧ startswith r q = true.
Proof.
  rewrite startswith_iff. split.
  - intros [r ->]. exists (q +:+ r). split.
    + apply app_assoc_str.
    + apply startswith_app.
  - intros (r & -> & [r' ->]%startswith_inv). exists r'.
    symmetry. apply app_assoc_str.
Qed.

Lemma is_empty_true s : is_empty s = true ↔ s = "".
Proof. destruct s; simpl; split; congruence. Qed.


End PyStrFacts.

Import PyStrFacts.

Module CodecFacts.

Lemma parse_acls_entries acl : parse_acls acl = foldl parse_step ∅ (entries acl).
Proof. unfold parse_acls, entries. destruct (is_empty acl); reflexivity. Qed.

Lemma updated_acls_entries c g p :
  updated_acls c g p =
    match List.filter (λ acl, negb (startswith acl (entry_prefix g))) (entries c) with
    | [] => new_acl g p
    | existing => join "," (existing ++ [new_acl g p])
    end.
Proof.
  unfold updated_acls, entries, entry_prefix, new_acl.
  destruct (is_empty c); [reflexivity|].
  destruct (List.filter _ _); reflexivity.
Qed.

Lemma group_fields e :
  startswith e "group:" = true →
  ∃ r, e = "group:" +:+ r ∧ split ":" e = "group" :: split ":" r.
Proof.
  intros [r ->]%startswith_inv. exists r. split; [reflexivity|].
  change ("group:" +:+ r) with ("group" +:+ String ":" r).
  by apply split_app_sep.
Qed.

Lemma kept_prefix e :
  kept e = true → startswith e (entry_prefix (nth 1 (split ":" e) "")) = true.
Proof.
  unfold kept. intros [Hg Hlen]%andb_true_iff. apply Nat.leb_le in Hlen.
  destruct (group_fields e Hg) as (r & -> & Hsplit).
  rewrite Hsplit in *. simpl in Hlen.
  pose proof (join_split ":" r) as Hr.
  destruct (split ":" r) as [|id [|x rest]]; simpl in Hlen; try lia.
  simpl nth. rewrite join_cons in Hr.
  apply startswith_iff. exists (join ":" (x :: rest)).
  unfold entry_prefix. rewrite <- Hr at 1.
  rewrite !app_assoc_str. reflexivity.
Qed.

Lemma parse_fold_other g l m :
  (∀ e, In e l → startswith e (entry_prefix g) = false) →
  foldl parse_step m l !! g = m !! g.
Proof.
  revert m. induction l as [|e l IH]; intros m Hl; [reflexivity|].
  simpl. rewrite IH by (intros; apply Hl; by right).
  unfold parse_step. destruct (kept e) eqn:Hk; [|reflexivity].
  apply lookup_insert_ne. intros <-.
  apply kept_prefix in Hk. rewrite Hl in Hk by (by left). discriminate.
Qed.

Lemma new_acl_fields g p :
  split ":" (new_acl g p) = "group" :: split ":" (g +:+ String ":" p).
Proof.
  unfold new_acl.
  change ("group:" +:+ g +:+ ":" +:+ p) with ("group" +:+ String ":" (g +:+ String ":" p)).
  by apply split_app_sep.
Qed.

Lemma new_acl_not_read g p m :
  char_free ":" p = true → parse_step m (new_acl g p) !! g = m !! g.
Proof.
  intros Hp. unfold parse_step, kept. rewrite new_acl_fields.
  destruct (char_free ":" g) eqn:Hg.
  - rewrite split_app_sep, (split_char_free _ p) by assumption.
    simpl. by rewrite andb_false_r.
  - destruct (_ && _); [|reflexivity].
    apply lookup_insert_ne. simpl. intros Heq.
    pose proof (split_all_char_free ":" (g +:+ String ":" p)) as Hall.
    pose proof (split_not_nil ":" (g +:+ String ":" p)) as Hne.
    destruct (split ":" (g +:+ String ":" p)) as [|f fs]; [done|].
    inversion Hall; subst. simpl in Hg. congruence.
Qed.

Lemma startswith_new_acl g p : startswith (new_acl g p) (entry_prefix g) = true.
Proof.
  apply startswith_iff. exists p. unfold new_acl, entry_prefix.
  rewrite !app_assoc_str. reflexivity.
Qed.

Lemma new_acl_comma_free g p :
  char_free "," g = true → char_free "," p = true → char_free "," (new_acl g p) = true.
Proof.
  intros Hg Hp. unfold new_acl. rewrite !char_free_app, Hg, Hp. reflexivity.
Qed.

Lemma new_acl_not_empty g p : is_empty (new_acl g p) = false.
Proof. reflexivity. Qed.

Lemma entries_all_comma_free c : Forall (λ x, char_free "," x = true) (entries c).
Proof.
  unfold entries. destruct (is_empty c); [constructor|apply split_all_char_free].
Qed.

Lemma entries_join l x :
  Forall (λ e, char_free "," e = true) l → char_free "," x = true → is_empty x = false →
  entries (join "," (l ++ [x])) = l ++ [x].
Proof.
  intros Hl Hx Hne.
  assert (Hsplit : split "," (join "," (l ++ [x])) = l ++ [x]).
  { apply split_join; [by destruct l|].
    apply Forall_app; split; [assumption|by constructor]. }
  unfold entries. destruct (is_empty (join "," (l ++ [x]))) eqn:He; [|assumption].
  apply is_empty_true in He. rewrite He in Hsplit. simpl in Hsplit.
  destruct l as [|y [|z l]]; simpl in Hsplit; try discriminate.
  injection Hsplit as <-. discriminate.
Qed.

(** The entries of the committed text: the old entries of other
    identities, then the new entry. *)
Lemma entries_updated c g p :
  char_free "," g = true → char_free "," p = true →
  entries (updated_acls c g p) =
    List.filter (λ acl, negb (startswith acl (entry_prefix g))) (entries c) ++ [new_acl g p].
Proof.
  intros Hg Hp. rewrite updated_acls_entries.
  pose proof (new_acl_comma_free g p Hg Hp) as Hnew.
  assert (Hex : Forall (λ x, char_free "," x = true)
                  (List.filter (λ acl, negb (startswith acl (entry_prefix g))) (entries c))).
  { apply List.Forall_forall. intros x [Hx _]%List.filter_In.
    pose proof (entries_all_comma_free c) as Hall.
    rewrite List.Forall_forall in Hall. by apply Hall. }
  destruct (List.filter _ (entries c)) as [|y ys] eqn:Hf.
  - unfold entries. rewrite new_acl_not_empty. by rewrite split_char_free.
  - by apply entries_join.
Qed.

Lemma filter_idem {A} (f : A → bool) l : List.filter f (List.filter f l) = List.filter f l.
Proof.
  induction l as [|e l IH]; [reflexivity|].
  cbn [List.filter]. destruct (f e) eqn:He; [|exact IH].
  cbn [List.filter]. rewrite He. by f_equal.
Qed.

Lemma filter_prefix_idem g p l :
  List.filter (λ acl, negb (startswith acl (entry_prefix g)))
    (List.filter (λ acl, negb (startswith acl (entry_prefix g))) l ++ [new_acl g p]) =
  List.filter (λ acl, negb (startswith acl (entry_prefix g))) l.
Proof.
  rewrite List.filter_app, filter_idem.
  cbn [List.filter]. rewrite startswith_new_acl. cbn [negb].
  apply app_nil_r.
Qed.

(** Committing twice commits the same text. *)
Lemma updated_acls_idem c g p :
  char_free "," g = true → char_free "," p = true →
  updated_acls (updated_acls c g p) g p = updated_acls c g p.
Proof.
  intros Hg Hp.
  rewrite (updated_acls_entries (updated_acls c g p)), entries_updated by assumption.
  rewrite filter_prefix_idem. symmetry. apply updated_acls_entries.
Qed.

(** The codec does not read back the entry the program writes. *)
Lemma parse_updated_None c g p :
  char_free "," g = true → char_free "," p = true → char_free ":" p = true →
  parse_acls (updated_acls c g p) !! g = None.
Proof.
  intros Hg Hp Hp'.
  rewrite parse_acls_entries, entries_updated, foldl_app by assumption.
  cbn [foldl]. rewrite new_acl_not_read by assumption.
  rewrite parse_fold_other; [apply lookup_empty|].
  intros e [_ He]%List.filter_In. by apply negb_true_iff.
Qed.

End CodecFacts.

Import CodecFacts.

(** ** Facts about the path chain *)

Module PathFacts.

Lemma length_app_str (s t : string) :
  String.length (s +:+ t) = String.length s + String.length t.
Proof.
  induction s as [|a s IH]; [reflexivity|].
  rewrite app_cons_str. simpl. by rewrite IH.
Qed.

Lemma join_app c (a b : list string) :
  a ≠ [] → b ≠ [] → join c (a ++ b) = join c a +:+ String c (join c b).
Proof.
  intros Ha Hb. induction a as [|x a IH]; [done|].
  destruct a as [|y a].
  - destruct b as [|z b]; [done|]. reflexivity.
  - change ((x :: y :: a) ++ b) with (x :: y :: (a ++ b)).
    rewrite !join_cons. change (y :: a ++ b) with ((y :: a) ++ b).
    rewrite IH by done. by rewrite app_assoc_str.
Qed.

Lemma join_firstn_lt c (l : list string) (i j : nat) :
  (1 ≤ i)%nat → (i < j)%nat → (j ≤ length l)%nat →
  String.length (join c (firstn i l)) < String.length (join c (firstn j l)).
Proof.
  intros Hi Hij Hj.
  replace j with (i + (j - i)) by lia.
  rewrite <- take_take_drop.
  rewrite join_app.
  - rewrite length_app_str. simpl. lia.
  - intros Hnil. apply (f_equal (@length string)) in Hnil.
    rewrite length_take in Hnil. simpl in Hnil. lia.
  - intros Hnil. apply (f_equal (@length string)) in Hnil.
    rewrite length_take, length_drop in Hnil. simpl in Hnil. lia.
Qed.

Lemma relative_path_spec parts : relative_path_of parts = join "/" (skipn 1 parts).
Proof.
  unfold relative_path_of. destruct (1 <? length parts)%nat eqn:Hlen; [reflexivity|].
  apply Nat.ltb_ge in Hlen. destruct parts as [|x [|y parts]]; simpl in *; [done|done|lia].
Qed.

Lemma parent_paths_spec parts :
  parent_paths_of parts =
    map (λ i, join "/" (firstn i (skipn 1 parts))) (seq 1 (length parts - 2)).
Proof.
  unfold parent_paths_of. destruct (2 <? length parts)%nat eqn:Hlen.
  - replace (length parts - 1 - 1) with (length parts - 2) by lia.
    apply map_ext. intros i. unfold slice. by rewrite Nat.add_sub.
  - apply Nat.ltb_ge in Hlen. by replace (length parts - 2) with 0 by lia.
Qed.

Lemma NoDup_map_on {A B} (f : A → B) (l : list A) :
  (∀ x y, In x l → In y l → f x = f y → x = y) → NoDup l → NoDup (map f l).
Proof.
  intros Hinj Hl. induction Hl as [|x l Hx Hl IH]; simpl; constructor.
  - rewrite list_elem_of_In, in_map_iff. intros (y & Hy & Hin).
    apply Hx. rewrite list_elem_of_In.
    assert (y = x) as <-; [|assumption].
    apply Hinj; [by right|by left|assumption].
  - apply IH. intros y z Hy Hz. apply Hinj; by right.
Qed.

Lemma parent_paths_NoDup parts : NoDup (parent_paths_of parts).
Proof.
  rewrite parent_paths_spec. apply NoDup_map_on; [|apply NoDup_seq].
  intros i j [Hi1 Hi2]%in_seq [Hj1 Hj2]%in_seq Heq.
  assert (Hlen : length (skipn 1 parts) = length parts - 1) by apply length_drop.
  destruct (Nat.lt_trichotomy i j) as [Hlt|[->|Hlt]]; [|done|].
  - pose proof (join_firstn_lt "/" (skipn 1 parts) i j) as H.
    rewrite Heq in H. lia.
  - pose proof (join_firstn_lt "/" (skipn 1 parts) j i) as H.
    rewrite Heq in H. lia.
Qed.

Lemma relative_not_parent parts : ¬ In (relative_path_of parts) (parent_paths_of parts).
Proof.
  rewrite relative_path_spec, parent_paths_spec, in_map_iff.
  intros (i & Heq & [Hi1 Hi2]%in_seq).
  assert (Hlen : length (skipn 1 parts) = length parts - 1) by apply length_drop.
  pose proof (join_firstn_lt "/" (skipn 1 parts) i (length parts - 1)) as H.
  rewrite <- Hlen, firstn_all, Heq in H. lia.
Qed.


Lemma path_parts_not_nil path : path_parts_of path ≠ [].
Proof. apply split_not_nil. Qed.

End PathFacts.

Import PathFacts.

Module ReconcileFacts.

Lemma parse_permission_cases permission :
  parse_permission permission = "r-x" ∨ parse_permission permission = "rwx".
Proof.
  unfold parse_permission.
  destruct (decide (upper permission = "R")) as [->|HR]; [by left|].
  destruct (decide (upper permission = "W")) as [->|HW]; [by right|].
  left. rewrite lookup_insert_ne, lookup_singleton_ne by done. reflexivity.
Qed.

Lemma parse_permission_safe permission :
  char_free "," (parse_permission permission) = true ∧
  char_free ":" (parse_permission permission) = true.
Proof. destruct (parse_permission_cases permission) as [-> | ->]; by split. Qed.

Lemma target_should_update_empty g permission fu :
  target_should_update "" g permission fu = true.
Proof.
  unfold target_should_update, parse_acls. cbn [is_empty].
  rewrite lookup_empty. cbn [default is_empty]. by rewrite orb_true_r.
Qed.

Lemma parent_should_update_empty g fu : parent_should_update "" g fu = true.
Proof.
  unfold parent_should_update, parse_acls. cbn [is_empty]. rewrite lookup_empty.
  rewrite bool_decide_eq_false_2; [reflexivity|]. by intros [? ?].
Qed.

Section Target.
Context (st : gmap (string * string * string) string).
Context (a c rel g permission : string) (fu fp : bool).

Let key := (a, c, rel).
Let cur := default "" (st !! key).
Let res := update_target st a c rel g permission (parse_permission permission) fu fp.

Lemma update_target_calls :
    res.2 = created_calls (st !! key) rel ++
            if target_should_update cur g permission fu
            then [SetAccessControlRecursive rel
                    (updated_acls cur g (parse_permission permission))
                    (if fp then ModeSet else ModeModify)]
            else [].
  Proof.
    subst res cur key. unfold update_target, target_should_update.
    destruct (st !! (a, c, rel)) as [acl|]; simpl;
      destruct (_ || _); simpl; by rewrite ?app_nil_r.
  Qed.

Lemma update_target_lookup :
    res.1 !! key = Some (target_value g permission fu (st !! key)).
  Proof.
    subst res cur key. unfold update_target, target_value.
    destruct (st !! (a, c, rel)) as [acl|] eqn:Hst; simpl.
    - unfold target_should_update.
      destruct (_ || _); simpl; [apply lookup_insert_eq|assumption].
    - rewrite target_should_update_empty.
      pose proof (target_should_update_empty g permission fu) as H.
      unfold target_should_update in H. simpl in H. rewrite H. simpl.
      apply lookup_insert_eq.
  Qed.

Lemma update_target_lookup_ne k : k ≠ key → res.1 !! k = st !! k.
  Proof.
    intros Hk. subst res cur key. unfold update_target.
    destruct (st !! (a, c, rel)) as [acl|] eqn:Hst; simpl;
      destruct (_ || _); simpl; by rewrite ?lookup_insert_ne.
  Qed.
End Target.

Section Parents.
Context (a c env : string) (fu : bool).

Lemma update_parents_lookup_ne ps st k :
    (∀ p, In p ps → k ≠ (a, c, p)) →
    (update_parents st a c ps env fu).1 !! k = st !! k.
  Proof.
    revert st. induction ps as [|p ps IH]; intros st Hk; [reflexivity|].
    simpl. destruct (st !! (a, c, p)) as [acl|] eqn:Hst;
      destruct (_ || _); simpl;
      match goal with |- context [update_parents ?s _ _ _ _ _] =>
        specialize (IH s); destruct (update_parents s a c ps env fu) as [st3 calls'] end;
      simpl in *; rewrite IH by (intros; apply Hk; by right);
      rewrite ?lookup_insert_ne by (apply not_eq_sym, Hk; by left); done.
  Qed.

Lemma update_parents_lookup ps st p :
    NoDup ps → In p ps →
    (update_parents st a c ps env fu).1 !! (a, c, p)
    = Some (parent_value env fu (st !! (a, c, p))).
  Proof.
    intros Hnd. revert st. induction Hnd as [|q ps Hq Hnd IH]; intros st Hin; [done|].
    rewrite list_elem_of_In in Hq.
    assert (Hstep : ∀ st2 : gmap (string * string * string) string,
      (if decide (q = p)
       then st2 !! (a, c, p) = Some (parent_value env fu (st !! (a, c, p)))
       else st2 !! (a, c, p) = st !! (a, c, p)) →
      (let '(st3, calls') := update_parents st2 a c ps env fu in st3) !! (a, c, p)
      = Some (parent_value env fu (st !! (a, c, p)))).
    { intros st2 Hst2. destruct (decide (q = p)) as [->|Hne].
      - pose proof (update_parents_lookup_ne ps st2 (a, c, p)) as Hout.
        destruct (update_parents st2 a c ps env fu) as [st3 calls']. simpl in *.
        rewrite Hout; [assumption|]. intros p' Hp' [= ->]. contradiction.
      - destruct Hin as [->|Hin]; [done|]. specialize (IH st2 Hin).
        destruct (update_parents st2 a c ps env fu) as [st3 calls']. simpl in *.
        by rewrite IH, Hst2. }
    simpl. unfold parent_value, parent_should_update in *.
    destruct (st !! (a, c, q)) as [acl|] eqn:Hst.
    - destruct (negb (bool_decide (is_Some (parse_acls acl !! env))) || fu) eqn:Hup; simpl.
      + match goal with |- context [update_parents ?s _ _ _ _ _] =>
          specialize (Hstep s); destruct (update_parents s a c ps env fu) end.
        simpl in *. apply Hstep. destruct (decide (q = p)) as [->|Hne].
        * rewrite lookup_insert_eq, Hst. simpl. by rewrite Hup.
        * rewrite lookup_insert_ne; [done|]. by intros [= ->].
      + specialize (Hstep st). destruct (update_parents st a c ps env fu).
        simpl in *. apply Hstep. destruct (decide (q = p)) as [->|Hne]; [|done].
        rewrite Hst. simpl. by rewrite Hup.
    - pose proof (parent_should_update_empty env fu) as Hup.
      unfold parent_should_update in Hup. rewrite Hup. simpl.
      match goal with |- context [update_parents ?s _ _ _ _ _] =>
        specialize (Hstep s); destruct (update_parents s a c ps env fu) end.
      simpl in *. apply Hstep. destruct (decide (q = p)) as [->|Hne].
      + rewrite lookup_insert_eq, Hst. simpl. by rewrite Hup.
      + rewrite !lookup_insert_ne; [done| |]; by intros [= ->].
  Qed.

Lemma update_parents_calls ps st call :
    In call (update_parents st a c ps env fu).2 →
    ∃ p, In p ps ∧
         (call = CreateDirectory p ∨ ∃ acl, call = SetAccessControlRecursive p acl ModeSet).
  Proof.
    revert st. induction ps as [|p ps IH]; intros st; [done|].
    simpl. destruct (st !! (a, c, p)) as [acl|] eqn:Hst;
      destruct (_ || _); simpl;
      match goal with |- context [update_parents ?s _ _ _ _ _] =>
        specialize (IH s); destruct (update_parents s a c ps env fu) as [st3 calls'] end;
      simpl in *; intros Hin;
      repeat (destruct Hin as [<-|Hin]; [exists p; split; [by left|eauto]|]);
      destruct (IH Hin) as (p' & Hp' & Hcall); exists p'; (split; [by right|assumption]).
  Qed.
Lemma update_parents_cons q ps st :
    update_parents st a c (q :: ps) env fu =
      let cur := default "" (st !! (a, c, q)) in
      let up := parent_should_update cur env fu in
      let st2 := if up then <[(a, c, q) := updated_acls cur env "--x"]> st else st in
      let r := update_parents st2 a c ps env fu in
      (r.1, created_calls (st !! (a, c, q)) q
            ++ (if up then [SetAccessControlRecursive q (updated_acls cur env "--x") ModeSet]
                else [])
            ++ r.2).
  Proof.
    cbn [update_parents]. unfold parent_should_update.
    destruct (st !! (a, c, q)) as [acl|] eqn:Hst; cbn [default created_calls].
    - destruct (_ || _); cbn zeta;
        destruct (update_parents _ a c ps env fu); reflexivity.
    - pose proof (parent_should_update_empty env fu) as Hup.
      unfold parent_should_update in Hup. rewrite Hup. cbn zeta.
      rewrite insert_insert_eq.
      destruct (update_parents _ a c ps env fu); reflexivity.
  Qed.

Lemma update_parents_set_iff ps st p acl m :
    NoDup ps →
    In (SetAccessControlRecursive p acl m) (update_parents st a c ps env fu).2 ↔
    In p ps ∧ m = ModeSet ∧
    parent_should_update (default "" (st !! (a, c, p))) env fu = true ∧
    acl = updated_acls (default "" (st !! (a, c, p))) env "--x".
  Proof.
    intros Hnd. revert st. induction Hnd as [|q ps Hq Hnd IH]; intros st.
    { simpl. tauto. }
    rewrite list_elem_of_In in Hq.
    rewrite update_parents_cons. cbn zeta. cbn [snd].
    set (cur := default "" (st !! (a, c, q))).
    set (up := parent_should_update cur env fu).
    set (st2 := if up then <[(a, c, q) := updated_acls cur env "--x"]> st else st).
    assert (Hst2 : ∀ p', In p' ps → st2 !! (a, c, p') = st !! (a, c, p')).
    { intros p' Hp'. subst st2. destruct up; [|done].
      apply lookup_insert_ne. intros [= ->]. contradiction. }
    rewrite !in_app_iff, IH. split.
    - intros [Hc|[Hs|(Hin & -> & Hup & ->)]].
      + exfalso. destruct (st !! (a, c, q)); simpl in Hc; [done|].
        by destruct Hc as [Hc|[]].
      + destruct up eqn:Hup; [|done]. destruct Hs as [[= <- <- <-]|[]].
        repeat split; [by left|assumption].
      + rewrite Hst2 in * by assumption. repeat split; [by right|assumption].
    - intros ([<-|Hin] & -> & Hup & ->).
      + right; left. fold cur. fold cur in Hup. fold up in Hup. rewrite Hup. by left.
      + right; right. rewrite Hst2 by assumption. done.
  Qed.

End Parents.

End ReconcileFacts.

Import ReconcileFacts.

(** ** Facts about a whole request *)

Module RequestFacts.

Lemma backup_paths_calls_iff st a c paths call :
  In call (backup_paths st a c paths).2 ↔
  ∃ p, In p paths ∧
       call = match st !! (a, c, p) with
              | Some acl => BackupRows p (backup_rows a c p acl)
              | None => BackupMissing p
              end.
Proof.
  induction paths as [|q paths IH]; simpl.
  - split; [done|]. by intros (p & [] & _).
  - destruct (backup_paths st a c paths) as [rows' calls'] eqn:Hrec. simpl in IH.
    assert (Hhead : In call (match st !! (a, c, q) with
                             | Some acl => (backup_rows a c q acl ++ rows',
                                            BackupRows q (backup_rows a c q acl) :: calls')
                             | None => (rows', BackupMissing q :: calls')
                             end).2 ↔
                    call = match st !! (a, c, q) with
                           | Some acl => BackupRows q (backup_rows a c q acl)
                           | None => BackupMissing q
                           end ∨ In call calls').
    { destruct (st !! (a, c, q)); simpl; split; intros [H|H]; auto. }
    rewrite Hhead, IH. split.
    + intros [->|(p & Hp & ->)]; [exists q|exists p]; auto.
    + intros (p & [->|Hp] & ->); [by left|right; eauto].
Qed.

Lemma backup_paths_no_mutation st a c paths call :
  In call (backup_paths st a c paths).2 → is_mutation call = false.
Proof.
  intros (p & _ & ->)%backup_paths_calls_iff. by destruct (st !! (a, c, p)).
Qed.



Lemma backup_acls_to_csv_calls st a c paths file :
  (backup_acls_to_csv st a c paths file).2 = (backup_paths st a c paths).2.
Proof.
  unfold backup_acls_to_csv. by destruct (backup_paths st a c paths).
Qed.

Section Request.
Context (graph_client : string → option (list string)) (client_ok : string → bool).
Context (row : Row) (w : World).

Lemma apply_processed gid env :
  resolves graph_client client_ok row w gid env →
  ∃ clients,
    apply_acls_to_path graph_client client_ok row w =
      (Processed, mkWorld (parents_phase row w gid env).1 clients (backup_file_after row w),
       backup_phase row w ++ (target_phase row w gid).2 ++ (parents_phase row w gid env).2).
Proof.
  intros (Hc & Hg & He). unfold apply_acls_to_path.
  assert (∃ clients,
    (if bool_decide (storage row ∈ w_service_clients w)
     then Some (w_service_clients w)
     else if client_ok (storage row)
          then Some ({[storage row]} ∪ w_service_clients w) else None) = Some clients)
    as [clients ->].
  { unfold client_ready in Hc. destruct (bool_decide _); [eauto|].
    simpl in Hc. rewrite Hc. eauto. }
  rewrite Hg, He. cbn [w_storage w_backup_file].
  fold (container_of row) (relative_of row) (parents_of row).
  fold (force_update_of row) (force_propagation_of row).
  fold (paths_to_backup_of row).
  unfold parents_phase, target_phase, backup_phase, backup_file_after.
  destruct (update_target _ _ _ _ _ _ _ _ _) as [st1 calls_t]. cbn [fst snd].
  destruct (update_parents _ _ _ _ _ _) as [st2 calls_p]. cbn [fst snd].
  destruct (paths_to_backup_of row) as [|p0 paths] eqn:Hpaths.
  - by eexists.
  - rewrite <- (backup_acls_to_csv_calls _ _ _ _ (w_backup_file w)).
    destruct (backup_acls_to_csv _ _ _ _ _) as [file calls_b]. by eexists.
Qed.

Lemma apply_unresolved :
  truthy (get_azure_ad_group_object_id graph_client (group_name row)) = None ∨
  truthy (get_environment_group graph_client (environment row)) = None →
  ∃ out clients,
    apply_acls_to_path graph_client client_ok row w =
      (out, mkWorld (w_storage w) clients (w_backup_file w), []) ∧
    (out = ClientInitFailed ∧ client_ready client_ok row w = false ∨
     out = SkippedInvalidGroup ∧ client_ready client_ok row w = true ∨
     out = SkippedInvalidEnvironmentGroup ∧ client_ready client_ok row w = true).
Proof.
  intros Hfail. unfold apply_acls_to_path, client_ready.
  destruct (bool_decide (storage row ∈ w_service_clients w)); cbn [orb].
  2: destruct (client_ok (storage row)).
  3: { exists ClientInitFailed, (w_service_clients w). destruct w; auto. }
  all: destruct (truthy (get_azure_ad_group_object_id _ _)) as [gid|];
    [|eexists _, _; split; [reflexivity|auto]];
    destruct (truthy (get_environment_group _ _)) as [env|];
    [exfalso; by destruct Hfail|eexists _, _; split; [reflexivity|auto]].
Qed.

Lemma apply_cases :
  (∃ gid env, resolves graph_client client_ok row w gid env) ∨
  (∃ out clients,
      apply_acls_to_path graph_client client_ok row w =
        (out, mkWorld (w_storage w) clients (w_backup_file w), []) ∧
      out ≠ Processed).
Proof.
  destruct (client_ready client_ok row w) eqn:Hc.
  - destruct (truthy (get_azure_ad_group_object_id graph_client (group_name row)))
      as [gid|] eqn:Hg.
    + destruct (truthy (get_environment_group graph_client (environment row)))
        as [env|] eqn:He.
      * left. by exists gid, env.
      * right. destruct apply_unresolved as (out & clients & -> & Hout); [by right|].
        exists out, clients. split; [reflexivity|]. by destruct Hout as [[-> _]|[[-> _]|[-> _]]].
    + right. destruct apply_unresolved as (out & clients & -> & Hout); [by left|].
      exists out, clients. split; [reflexivity|]. by destruct Hout as [[-> _]|[[-> _]|[-> _]]].
  - right. exists ClientInitFailed, (w_service_clients w).
    unfold apply_acls_to_path. unfold client_ready in Hc.
    apply orb_false_iff in Hc as [-> ->]. by destruct w.
Qed.

End Request.

Section Resolved.
Context (graph_client : string → option (list string)) (client_ok : string → bool).
Context (row : Row) (w : World) (gid env : string).
Context (Hres : resolves graph_client client_ok row w gid env).

Let r := apply_acls_to_path graph_client client_ok row w.


Lemma run_calls :
  calls_of r = backup_phase row w ++ (target_phase row w gid).2
               ++ (parents_phase row w gid env).2.
Proof. subst r. by destruct (apply_processed _ _ _ _ _ _ Hres) as (? & ->). Qed.

Lemma run_storage : w_storage (world_of r) = (parents_phase row w gid env).1.
Proof. subst r. by destruct (apply_processed _ _ _ _ _ _ Hres) as (? & ->). Qed.



Lemma target_phase_other p :
  In p (parents_of row) →
  (target_phase row w gid).1 !! key_of row p = w_storage w !! key_of row p.
Proof.
  intros Hp. apply update_target_lookup_ne. intros [= ->].
  by apply (relative_not_parent (path_parts_of (path row))).
Qed.

Lemma run_storage_target :
  w_storage (world_of r) !! key_of row (relative_of row) =
    Some (target_value gid (permission row) (force_update_of row)
            (w_storage w !! key_of row (relative_of row))).
Proof.
  rewrite run_storage. unfold parents_phase.
  rewrite update_parents_lookup_ne; [apply update_target_lookup|].
  intros p Hp [= <-].
  by apply (relative_not_parent (path_parts_of (path row))).
Qed.

Lemma run_storage_parent p :
  In p (parents_of row) →
  w_storage (world_of r) !! key_of row p =
    Some (parent_value env (force_update_of row) (w_storage w !! key_of row p)).
Proof.
  intros Hp. rewrite run_storage. unfold parents_phase, key_of.
  rewrite update_parents_lookup; [|apply parent_paths_NoDup|assumption].
  fold (key_of row p). by rewrite (target_phase_other p Hp).
Qed.

Lemma run_storage_other k :
  k ≠ key_of row (relative_of row) →
  (∀ p, In p (parents_of row) → k ≠ key_of row p) →
  w_storage (world_of r) !! k = w_storage w !! k.
Proof.
  intros Hrel Hps. rewrite run_storage. unfold parents_phase.
  rewrite update_parents_lookup_ne by exact Hps.
  by apply update_target_lookup_ne.
Qed.

Lemma run_set_calls p acl m :
  In (SetAccessControlRecursive p acl m) (calls_of r) ↔
  (p = relative_of row ∧
   target_should_update (current_acls_of row w) gid (permission row) (force_update_of row) = true ∧
   acl = updated_acls (current_acls_of row w) gid (parse_permission (permission row)) ∧
   m = (if force_propagation_of row then ModeSet else ModeModify)) ∨
  (In p (parents_of row) ∧ m = ModeSet ∧
   parent_should_update (default "" (w_storage w !! key_of row p)) env (force_update_of row) = true ∧
   acl = updated_acls (default "" (w_storage w !! key_of row p)) env "--x").
Proof.
  rewrite run_calls, !in_app_iff. unfold parents_phase.
  rewrite update_parents_set_iff by apply parent_paths_NoDup.
  unfold target_phase at 1. rewrite update_target_calls, in_app_iff.
  fold (key_of row (relative_of row)). fold (current_acls_of row w).
  split.
  - intros [Hb|[[Hc|Ht]|(Hp & -> & Hup & ->)]].
    + by apply backup_paths_no_mutation in Hb.
    + exfalso. unfold created_calls in Hc.
      destruct (w_storage w !! _); [done|]. by destruct Hc as [Hc|[]].
    + left. destruct (target_should_update _ _ _ _); [|done].
      destruct Ht as [[= <- <- <-]|[]]. done.
    + right. fold (key_of row p) in *. rewrite (target_phase_other p Hp) in *. done.
  - intros [(-> & Hup & -> & ->)|(Hp & -> & Hup & ->)].
    + right; left; right. rewrite Hup. by left.
    + right; right. fold (key_of row p). rewrite (target_phase_other p Hp). done.
Qed.

(** Every write commits the text the directory holds once the request
    is over. *)
Lemma run_set_final p acl m :
  In (SetAccessControlRecursive p acl m) (calls_of r) →
  w_storage (world_of r) !! key_of row p = Some acl.
Proof.
  intros [(-> & Hup & -> & _)|(Hp & _ & Hup & ->)]%run_set_calls.
  - rewrite run_storage_target. unfold target_value.
    fold (current_acls_of row w). by rewrite Hup.
  - rewrite (run_storage_parent p Hp). unfold parent_value. by rewrite Hup.
Qed.

End Resolved.

End RequestFacts.

Import RequestFacts.

(** ** What the codec reads *)

Module ParseFacts.

Lemma kept_iff e :
  kept e = true ↔ hd "" (split ":" e) = "group" ∧ (4 ≤ length (split ":" e))%nat.
Proof.
  unfold kept. rewrite andb_true_iff, Nat.leb_le. split.
  - intros [Hg Hlen]. split; [|assumption].
    destruct (group_fields e Hg) as (r & _ & ->). reflexivity.
  - intros [Hhd Hlen]. split; [|assumption].
    pose proof (join_split ":" e) as He.
    destruct (split ":" e) as [|f [|g fs]]; simpl in *; try lia. subst f.
    rewrite join_cons in He. rewrite <- He.
    apply startswith_iff. by exists (join ":" (g :: fs)).
Qed.

Lemma binds_iff e g v :
  binds e g v ↔
  kept e = true ∧ nth 1 (split ":" e) "" = g ∧ nth 3 (split ":" e) "" = v.
Proof. unfold binds. rewrite kept_iff. tauto. Qed.

Lemma parse_step_lookup m e g :
  parse_step m e !! g =
    if kept e && bool_decide (nth 1 (split ":" e) "" = g)
    then Some (nth 3 (split ":" e) "")
    else m !! g.
Proof.
  unfold parse_step. destruct (kept e); [|reflexivity].
  cbn [andb]. case_bool_decide as Hg.
  - subst g. apply lookup_insert_eq.
  - by apply lookup_insert_ne.
Qed.

(** The value the loop of [parse_acls] leaves for [g]: that of the last
    kept entry of [g], else the one it started with. *)
Lemma parse_fold_lookup l m g v :
  foldl parse_step m l !! g = Some v ↔
  (∃ before entry after,
      l = before ++ entry :: after ∧ binds entry g v ∧
      ∀ e v', In e after → ¬ binds e g v') ∨
  (m !! g = Some v ∧ ∀ e v', In e l → ¬ binds e g v').
Proof.
  induction l as [|e l IH] using rev_ind.
  - simpl. split.
    + intros Hm. right. split; [assumption|]. by intros ? ? [].
    + intros [(before & entry & after & Heq & _)|[Hm _]]; [|assumption].
      by destruct before.
  - rewrite foldl_app. cbn [foldl]. rewrite parse_step_lookup.
    destruct (kept e && bool_decide (nth 1 (split ":" e) "" = g)) eqn:Hk.
    + apply andb_true_iff in Hk as [Hk Hg]. apply bool_decide_eq_true in Hg.
      assert (He : binds e g (nth 3 (split ":" e) "")) by (by apply binds_iff).
      split.
      * intros [= <-]. left. exists l, e, []. split; [reflexivity|].
        split; [assumption|]. by intros ? ? [].
      * intros [(before & entry & after & Heq & Hb & Hafter)|[_ Hnone]].
        -- destruct after as [|a after _] using rev_ind.
           ++ apply app_inj_tail in Heq as [_ <-].
              destruct Hb as (_ & _ & _ & <-). reflexivity.
           ++ rewrite app_comm_cons, app_assoc in Heq.
              apply app_inj_tail in Heq as [_ <-].
              exfalso. eapply Hafter; [|exact He]. apply in_app_iff. right. by left.
        -- exfalso. eapply Hnone; [|exact He]. apply in_app_iff. right. by left.
    + assert (He : ∀ v', ¬ binds e g v').
      { intros v' (Hk' & Hg' & _)%binds_iff. rewrite Hk' in Hk. cbn [andb] in Hk.
        by apply bool_decide_eq_false in Hk. }
      rewrite IH. split.
      * intros [(before & entry & after & -> & Hb & Hafter)|[Hm Hnone]].
        -- left. exists before, entry, (after ++ [e]).
           split; [by rewrite <- app_assoc|]. split; [assumption|].
           intros e' v' [Hin|[<-|[]]]%in_app_iff; [by apply Hafter|apply He].
        -- right. split; [assumption|].
           intros e' v' [Hin|[<-|[]]]%in_app_iff; [by apply Hnone|apply He].
      * intros [(before & entry & after & Heq & Hb & Hafter)|[Hm Hnone]].
        -- destruct after as [|a after _] using rev_ind.
           ++ apply app_inj_tail in Heq as [_ <-]. by destruct (He v).
           ++ rewrite app_comm_cons, app_assoc in Heq.
              apply app_inj_tail in Heq as [-> <-].
              left. exists before, entry, after. split; [reflexivity|].
              split; [assumption|]. intros e' v' Hin. apply Hafter.
              apply in_app_iff. by left.
        -- right. split; [assumption|]. intros e' v' Hin. apply Hnone.
           apply in_app_iff. by left.
Qed.

Lemma parse_fold_is_Some l m g :
  is_Some (foldl parse_step m l !! g) ↔
  is_Some (m !! g) ∨ ∃ e v, In e l ∧ binds e g v.
Proof.
  revert m. induction l as [|e l IH]; intros m; cbn [foldl].
  - split; [by left|]. intros [H|(e & v & [] & _)]. exact H.
  - rewrite IH, parse_step_lookup.
    destruct (kept e && bool_decide (nth 1 (split ":" e) "" = g)) eqn:Hk.
    + apply andb_true_iff in Hk as [Hk Hg]. apply bool_decide_eq_true in Hg.
      split; [|by left]. intros _. right.
      exists e, (nth 3 (split ":" e) ""). split; [by left|]. by apply binds_iff.
    + assert (He : ∀ v, ¬ binds e g v).
      { intros v (Hk' & Hg' & _)%binds_iff. rewrite Hk' in Hk. cbn [andb] in Hk.
        by apply bool_decide_eq_false in Hk. }
      split.
      * intros [Hm|(e' & v & Hin & Hb)]; [by left|]. right. exists e', v.
        split; [by right|assumption].
      * intros [Hm|(e' & v & [<-|Hin] & Hb)]; [by left|by destruct (He v)|].
        right. by exists e', v.
Qed.

End ParseFacts.

Import ParseFacts.

(** ** The decision of line 164 *)

Module PolicyFacts.

Lemma target_should_update_iff row w gid :
  target_should_update (current_acls_of row w) gid (permission row) (force_update_of row) = true
  ↔ update_policy row w gid.
Proof.
  unfold target_should_update, update_policy. fold (current_perm_of row w gid).
  rewrite !orb_true_iff, andb_true_iff, negb_true_iff, is_empty_true.
  rewrite String.eqb_eq, String.eqb_neq. tauto.
Qed.

Lemma parse_permission_W : parse_permission "W" = "rwx".
Proof. reflexivity. Qed.


Section TargetWrite.
Context (graph_client : string → option (list string)) (client_ok : string → bool).
Context (row : Row) (w : World) (gid env : string).
Context (Hres : resolves graph_client client_ok row w gid env).

Lemma target_write_policy acl mode :
  In (SetAccessControlRecursive (relative_of row) acl mode)
     (calls_of (apply_acls_to_path graph_client client_ok row w)) →
  update_policy row w gid.
Proof.
  intros [(_ & Hup & _)|(Hp & _)]%(run_set_calls _ _ _ _ _ _ Hres).
  - by apply target_should_update_iff.
  - exfalso. by apply (relative_not_parent (path_parts_of (path row))).
Qed.

Lemma policy_target_write :
  update_policy row w gid →
  In (SetAccessControlRecursive (relative_of row)
        (updated_acls (current_acls_of row w) gid (parse_permission (permission row)))
        (if force_propagation_of row then ModeSet else ModeModify))
     (calls_of (apply_acls_to_path graph_client client_ok row w)).
Proof.
  intros Hpol. apply (run_set_calls _ _ _ _ _ _ Hres). left.
  by rewrite target_should_update_iff.
Qed.

Lemma written_iff_policy :
  written (calls_of (apply_acls_to_path graph_client client_ok row w)) (relative_of row)
  ↔ update_policy row w gid.
Proof.
  split.
  - intros (acl & mode & Hcall). by eapply target_write_policy.
  - intros Hpol. eexists _, _. by apply policy_target_write.
Qed.

End TargetWrite.

End PolicyFacts.

Import PolicyFacts.

(** ** Order of the calls *)

Module OrderFacts.


End OrderFacts.

Import OrderFacts.

(** ** The committed text ends with the new entry *)

Module SuffixFacts.



End SuffixFacts.

Import SuffixFacts.

(** ** Identities of the entries of a merged text *)

Module MergeFacts.

Lemma entry_identity_prefix g e :
  char_free ":" g = true →
  startswith e (entry_prefix g) = true ↔ entry_identity e = Some g.
Proof.
  intros Hg. unfold entry_identity, entry_prefix. split.
  - intros [r ->]%startswith_inv.
    replace (("group:" +:+ g +:+ ":") +:+ r)
      with ("group" +:+ String ":" (g +:+ String ":" r))
      by (by rewrite !app_assoc_str).
    rewrite split_app_sep by reflexivity. rewrite split_app_sep by assumption.
    pose proof (split_not_nil ":" r) as Hne.
    by destruct (split ":" r).
  - intros Hid. pose proof (join_split ":" e) as He.
    destruct (split ":" e) as [|scope [|identity [|x rest]]]; try discriminate.
    destruct (String.eqb scope "group") eqn:Hscope; [|discriminate].
    apply String.eqb_eq in Hscope. injection Hid as ->. subst scope.
    rewrite !join_cons in He. rewrite <- He.
    apply startswith_iff. exists (join ":" (x :: rest)).
    by rewrite !app_assoc_str.
Qed.

Lemma entry_identity_new g p :
  char_free ":" g = true → entry_identity (new_acl g p) = Some g.
Proof.
  intros Hg. apply entry_identity_prefix; [assumption|apply startswith_new_acl].
Qed.

Lemma filter_prefix_identity g l :
  char_free ":" g = true →
  List.filter (λ e, negb (startswith e (entry_prefix g))) l =
  List.filter (λ e, negb (bool_decide (entry_identity e = Some g))) l.
Proof.
  intros Hg. apply List.filter_ext. intros e. f_equal.
  destruct (startswith e (entry_prefix g)) eqn:Hs.
  - symmetry. apply bool_decide_eq_true. by apply entry_identity_prefix.
  - symmetry. apply bool_decide_eq_false. intros Hid.
    apply entry_identity_prefix in Hid; [congruence|assumption].
Qed.

Lemma length_filter_filter {A} (f h : A → bool) l :
  (length (List.filter h (List.filter f l)) ≤ length (List.filter h l))%nat.
Proof.
  induction l as [|x l IH]; [done|].
  cbn [List.filter]. destruct (f x), (h x) eqn:Hx; cbn [List.filter length];
    rewrite ?Hx; cbn [length]; lia.
Qed.

Lemma filter_none_of g l :
  List.filter (λ e, bool_decide (entry_identity e = Some g))
    (List.filter (λ e, negb (bool_decide (entry_identity e = Some g))) l) = [].
Proof.
  induction l as [|x l IH]; [done|].
  cbn [List.filter]. destruct (bool_decide (entry_identity x = Some g)) eqn:Hx;
    cbn [negb List.filter]; [exact IH|]. by rewrite Hx.
Qed.

Lemma merge_step_unique acl g p :
  acl_safe g = true → char_free "," p = true →
  at_most_one_per_identity acl → at_most_one_per_identity (updated_acls acl g p).
Proof.
  unfold acl_safe. intros [Hcomma Hcolon]%andb_true_iff Hp Hacl h.
  rewrite entries_updated, filter_prefix_identity by assumption.
  rewrite List.filter_app, length_app. cbn [List.filter].
  rewrite entry_identity_new by assumption.
  destruct (decide (h = g)) as [->|Hne].
  - rewrite filter_none_of, bool_decide_eq_true_2 by reflexivity. done.
  - rewrite bool_decide_eq_false_2 by congruence. cbn [length].
    specialize (Hacl h).
    pose proof (length_filter_filter
                  (λ e, negb (bool_decide (entry_identity e = Some g)))
                  (λ e, bool_decide (entry_identity e = Some h)) (entries acl)).
    lia.
Qed.

Lemma merge_all_unique merges acl :
  Forall (λ m : string * string, acl_safe m.1 = true ∧ char_free "," m.2 = true) merges →
  at_most_one_per_identity acl → at_most_one_per_identity (merge_all acl merges).
Proof.
  intros Hall. revert acl. induction Hall as [|[g p] merges [Hg Hp] _ IH]; intros acl Hacl.
  - exact Hacl.
  - apply IH. by apply merge_step_unique.
Qed.

End MergeFacts.

Import MergeFacts.

(** ** Applying a request twice *)

Module TwiceFacts.

Lemma truthy_Some o id : truthy o = Some id → o = Some id.
Proof.
  destruct o as [id'|]; [|done]. cbn. destruct (is_empty id'); [done|]. congruence.
Qed.

Lemma default_Some {A} (d x : A) : default d (Some x) = x.
Proof. reflexivity. Qed.

Lemma target_value_idem g permission fu before :
  char_free "," g = true →
  target_value g permission fu (Some (target_value g permission fu before))
  = target_value g permission fu before.
Proof.
  intros Hg. destruct (parse_permission_safe permission) as [Hcomma Hcolon].
  unfold target_value.
  destruct (target_should_update (default "" before) g permission fu) eqn:Hup;
    rewrite default_Some; [|by rewrite Hup].
  assert (Hagain : target_should_update
                     (updated_acls (default "" before) g (parse_permission permission))
                     g permission fu = true).
  { unfold target_should_update. rewrite parse_updated_None by assumption.
    cbn [default is_empty]. by rewrite orb_true_r. }
  rewrite Hagain. by apply updated_acls_idem.
Qed.

Lemma parent_value_idem env fu before :
  char_free "," env = true →
  parent_value env fu (Some (parent_value env fu before)) = parent_value env fu before.
Proof.
  intros Henv. unfold parent_value.
  destruct (parent_should_update (default "" before) env fu) eqn:Hup;
    rewrite default_Some; [|by rewrite Hup].
  assert (Hagain : parent_should_update (updated_acls (default "" before) env "--x") env fu
                   = true).
  { unfold parent_should_update. rewrite parse_updated_None by done.
    rewrite bool_decide_eq_false_2; [reflexivity|]. by intros [? ?]. }
  rewrite Hagain. by apply updated_acls_idem.
Qed.

Section Twice.
Context (graph_client : string → option (list string)) (client_ok : string → bool).
Context (row : Row).

Lemma apply_no_client w :
  client_ready client_ok row w = false →
  apply_acls_to_path graph_client client_ok row w = (ClientInitFailed, w, []).
Proof.
  intros Hc. unfold apply_acls_to_path. unfold client_ready in Hc.
  by apply orb_false_iff in Hc as [-> ->].
Qed.

Lemma apply_storage_ready w :
  client_ready client_ok row w = true →
  w_storage (world_of (apply_acls_to_path graph_client client_ok row w))
  = reconciled graph_client row (w_storage w).
Proof.
  intros Hc. unfold reconciled.
  destruct (truthy (get_azure_ad_group_object_id graph_client (group_name row)))
    as [gid|] eqn:Hg.
  1: destruct (truthy (get_environment_group graph_client (environment row)))
    as [env|] eqn:He.
  1: { assert (Hres : resolves graph_client client_ok row w gid env) by done.
       by rewrite (run_storage _ _ _ _ _ _ Hres). }
  all: destruct (apply_unresolved graph_client client_ok row w) as (out & cl & -> & _);
    [rewrite ?Hg, ?He; auto|reflexivity].
Qed.

Lemma apply_storage_cases w :
  w_storage (world_of (apply_acls_to_path graph_client client_ok row w))
  = reconciled graph_client row (w_storage w) ∨
  w_storage (world_of (apply_acls_to_path graph_client client_ok row w)) = w_storage w.
Proof.
  destruct (client_ready client_ok row w) eqn:Hc.
  - left. by apply apply_storage_ready.
  - right. by rewrite apply_no_client.
Qed.

Lemma reconciled_idem st :
  ids_comma_free graph_client →
  reconciled graph_client row (reconciled graph_client row st)
  = reconciled graph_client row st.
Proof.
  intros Hids. unfold reconciled.
  destruct (truthy (get_azure_ad_group_object_id graph_client (group_name row)))
    as [gid|] eqn:Hg; [|reflexivity].
  destruct (truthy (get_environment_group graph_client (environment row)))
    as [env|] eqn:He; [|reflexivity].
  assert (Hgid : char_free "," gid = true).
  { apply truthy_Some in Hg. by eapply Hids. }
  assert (Henv : char_free "," env = true).
  { apply truthy_Some in He. unfold get_environment_group in He. by eapply Hids. }
  assert (Hres : ∀ st', resolves graph_client always_ok row (mkWorld st' ∅ []) gid env)
    by done.
  assert (Hrun : ∀ st', (parents_phase row (mkWorld st' ∅ []) gid env).1
                        = w_storage (world_of (apply_acls_to_path graph_client always_ok
                                                 row (mkWorld st' ∅ [])))).
  { intros st'. by rewrite (run_storage _ _ _ _ _ _ (Hres st')). }
  set (st1 := (parents_phase row (mkWorld st ∅ []) gid env).1).
  apply map_eq. intros [[a c] p].
  destruct (decide ((a, c) = (storage row, container_of row))) as [[= -> ->]|Hac].
  - fold (key_of row p).
    destruct (decide (p = relative_of row)) as [->|Hrel].
    + rewrite (Hrun st1), (run_storage_target _ _ _ _ _ _ (Hres st1)).
      cbn [w_storage]. subst st1.
      rewrite (Hrun st), (run_storage_target _ _ _ _ _ _ (Hres st)).
      cbn [w_storage]. f_equal. by apply target_value_idem.
    + destruct (in_dec string_dec p (parents_of row)) as [Hp|Hp].
      * rewrite (Hrun st1), (run_storage_parent _ _ _ _ _ _ (Hres st1) p Hp).
        cbn [w_storage]. subst st1.
        rewrite (Hrun st), (run_storage_parent _ _ _ _ _ _ (Hres st) p Hp).
        cbn [w_storage]. f_equal. by apply parent_value_idem.
      * rewrite (Hrun st1), (run_storage_other _ _ _ _ _ _ (Hres st1)); [done| |].
        -- intros [= ?]. done.
        -- intros p' Hp' [= ->]. done.
  - rewrite (Hrun st1), (run_storage_other _ _ _ _ _ _ (Hres st1)); [done| |].
    + intros [= -> ->]. done.
    + intros p' Hp' [= -> ->]. done.
Qed.

End Twice.

End TwiceFacts.

Import TwiceFacts.

(** ** The code on sample inputs *)

Module Samples.

Example split_fields : split ":" "group:g1:0:r-x" = ["group"; "g1"; "0"; "r-x"].
Proof. reflexivity. Qed.

Example split_empty : split "," "" = [""] ∧ split "," "," = [""; ""].
Proof. by split. Qed.

Example split_empty_triplet : split ":" "group:a1:0:" = ["group"; "a1"; "0"; ""].
Proof. reflexivity. Qed.

Example join_samples :
  join "," [""; ""; "x"] = ",,x" ∧ join "," [] = "" ∧ join "," ["a"] = "a".
Proof. repeat split. Qed.

Example strip_slashes : strip "/" "//data/team/reports/" = "data/team/reports".
Proof. reflexivity. Qed.

Example lower_true : lower "TRUE" = "true" ∧ lower "True" = "true" ∧ upper "w" = "W".
Proof. repeat split. Qed.

Example parse_permission_samples :
  parse_permission "R" = "r-x" ∧ parse_permission "W" = "rwx" ∧
  parse_permission "w" = "rwx" ∧ parse_permission "X" = "r-x" ∧ parse_permission "" = "r-x".
Proof. repeat split. Qed.

Example updated_acls_samples :
  updated_acls "" "a1" "rwx" = "group:a1:rwx" ∧
  updated_acls "group:a1:0:r-x" "a1" "rwx" = "group:a1:rwx" ∧
  updated_acls "user::rwx,group:a1:0:r-x,other::---" "a1" "rwx"
  = "user::rwx,other::---,group:a1:rwx".
Proof. repeat split. Qed.

Example path_chain_samples :
  path_parts_of "data/team/sub/reports" = ["data"; "team"; "sub"; "reports"] ∧
  relative_path_of ["data"; "team"; "sub"; "reports"] = "team/sub/reports" ∧
  parent_paths_of ["data"; "team"; "sub"; "reports"] = ["team"; "team/sub"] ∧
  parent_paths_of ["data"; "team"] = [] ∧
  relative_path_of ["data"] = "" ∧
  path_parts_of "" = [""] ∧
  parent_paths_of ["c"; ""; "x"] = [""] ∧ relative_path_of ["c"; ""; "x"] = "/x".
Proof. repeat split. Qed.

(** The end-to-end scenario of the specification: a write request for
    data/team/reports on an empty storage. *)
Example end_to_end_scenario :
  apply_acls_to_path sample_directory always_ok
    (sample_row "data/team/reports" "W" "false") empty_world
  = (Processed,
     mkWorld {[ ("acct1", "data", "team/reports") := "group:a1:rwx";
                ("acct1", "data", "team") := "group:p1:--x" ]}
             {[ "acct1" ]}
             [header],
     [BackupMissing "team/reports"; BackupMissing "team";
      CreateDirectory "team/reports";
      SetAccessControlRecursive "team/reports" "group:a1:rwx" ModeModify;
      CreateDirectory "team";
      SetAccessControlRecursive "team" "group:p1:--x" ModeSet]).
Proof. by vm_compute. Qed.

(** A read request on a target where the group holds [rwx] is skipped,
    and the existing entries are backed up first. *)
Example read_request_on_full_grant :
  calls_of (apply_acls_to_path sample_directory always_ok
              (sample_row "data/team" "R" "false")
              (world_with "team" "group:a1:0:rwx"))
  = [BackupRows "team" [["acct1"; "data"; "team"; "a1"; "rwx"]]].
Proof. by vm_compute. Qed.

End Samples.

(** ** Letter case *)

Module CaseFacts.

Lemma lower_upper_char a : lower_char (upper_char a) = lower_char a.
Proof. destruct a as [[] [] [] [] [] [] [] []]; reflexivity. Qed.

Lemma upper_lower_char a : upper_char (lower_char a) = upper_char a.
Proof. destruct a as [[] [] [] [] [] [] [] []]; reflexivity. Qed.

Lemma lower_lower_char a : lower_char (lower_char a) = lower_char a.
Proof. destruct a as [[] [] [] [] [] [] [] []]; reflexivity. Qed.

Lemma upper_char_W a : upper_char a = "W"%char ↔ a = "W"%char ∨ a = "w"%char.
Proof.
  split.
  - destruct a as [[] [] [] [] [] [] [] []]; vm_compute; intros [=]; auto.
  - intros [-> | ->]; reflexivity.
Qed.

Lemma map_chars_compose f g h s :
  (∀ a, f (g a) = h a) → map_chars f (map_chars g s) = map_chars h s.
Proof. intros Hfg. induction s as [|a s IH]; simpl; [reflexivity|]. by rewrite Hfg, IH. Qed.

Lemma lower_upper s : lower (upper s) = lower s.
Proof. apply map_chars_compose, lower_upper_char. Qed.

Lemma upper_lower s : upper (lower s) = upper s.
Proof. apply map_chars_compose, upper_lower_char. Qed.

Lemma lower_lower s : lower (lower s) = lower s.
Proof. apply map_chars_compose, lower_lower_char. Qed.

Lemma upper_W s : upper s = "W" ↔ s = "W" ∨ s = "w".
Proof.
  destruct s as [|a [|b s]].
  - split; [discriminate|]. intros [[=]|[=]].
  - cbn. split.
    + intros [= Ha]. apply upper_char_W in Ha as [-> | ->]; auto.
    + intros [[= ->]|[= ->]]; reflexivity.
  - split; [discriminate|]. intros [[=]|[=]].
Qed.

Lemma parse_permission_upper permission :
  parse_permission permission =
    if String.eqb (upper permission) "R" then "r-x"
    else if String.eqb (upper permission) "W" then "rwx" else "r-x".
Proof.
  unfold parse_permission.
  destruct (String.eqb_spec (upper permission) "R") as [->|HR]; [reflexivity|].
  destruct (String.eqb_spec (upper permission) "W") as [->|HW]; [reflexivity|].
  by rewrite lookup_insert_ne, lookup_singleton_ne.
Qed.

End CaseFacts.

Import CaseFacts.

(** ** The merge through the eyes of the codec *)

Module MergeViewFacts.

(** An entry the merge removes for a separator-free identity binds that
    identity, if it binds any. *)
Lemma removed_binds_identity g e :
  char_free ":" g = true → startswith e (entry_prefix g) = true →
  kept e = true → nth 1 (split ":" e) "" = g.
Proof.
  intros Hg Hs _. apply entry_identity_prefix in Hs; [|assumption].
  unfold entry_identity in Hs.
  destruct (split ":" e) as [|scope [|identity [|x rest]]]; try discriminate.
  destruct (String.eqb scope "group"); [|discriminate]. by injection Hs.
Qed.

Lemma new_acl_not_kept g p :
  char_free ":" g = true → char_free ":" p = true → kept (new_acl g p) = false.
Proof.
  intros Hg Hp. unfold kept. rewrite new_acl_fields.
  rewrite split_app_sep, (split_char_free _ p) by assumption.
  cbn. apply andb_false_r.
Qed.

Lemma parse_fold_filter g h l m1 m2 :
  char_free ":" g = true → h ≠ g → m1 !! h = m2 !! h →
  foldl parse_step m1 (List.filter (λ acl, negb (startswith acl (entry_prefix g))) l) !! h
  = foldl parse_step m2 l !! h.
Proof.
  intros Hg Hne. revert m1 m2. induction l as [|e l IH]; intros m1 m2 Hm; [exact Hm|].
  cbn [List.filter foldl].
  destruct (startswith e (entry_prefix g)) eqn:Hs; cbn [negb foldl]; apply IH.
  - rewrite parse_step_lookup.
    destruct (kept e) eqn:Hk; [|exact Hm]. cbn [andb].
    rewrite (removed_binds_identity g e Hg Hs Hk).
    by rewrite bool_decide_eq_false_2 by congruence.
  - by rewrite !parse_step_lookup, Hm.
Qed.

Lemma parse_updated g p c :
  acl_safe g = true → char_free "," p = true → char_free ":" p = true →
  parse_acls (updated_acls c g p) = delete g (parse_acls c).
Proof.
  unfold acl_safe. intros [Hcomma Hcolon]%andb_true_iff Hp Hp'.
  apply map_eq. intros h. destruct (decide (h = g)) as [->|Hne].
  - by rewrite parse_updated_None, lookup_delete_eq.
  - rewrite lookup_delete_ne by congruence.
    rewrite !parse_acls_entries, entries_updated, foldl_app by assumption.
    cbn [foldl]. unfold parse_step at 1. rewrite new_acl_not_kept by assumption.
    by apply parse_fold_filter.
Qed.

Lemma updated_acls_again c g p q :
  char_free "," g = true → char_free "," p = true →
  updated_acls (updated_acls c g p) g q = updated_acls c g q.
Proof.
  intros Hg Hp.
  rewrite (updated_acls_entries (updated_acls c g p)), entries_updated by assumption.
  rewrite filter_prefix_idem. symmetry. apply updated_acls_entries.
Qed.

Lemma new_acl_other_prefix g h p :
  char_free ":" g = true → char_free ":" h = true → g ≠ h →
  startswith (new_acl g p) (entry_prefix h) = false.
Proof.
  intros Hg Hh Hne. destruct (startswith _ _) eqn:Hs; [|reflexivity].
  apply entry_identity_prefix in Hs; [|assumption].
  rewrite entry_identity_new in Hs by assumption. congruence.
Qed.

Lemma filter_comm {A} (f h : A → bool) l :
  List.filter f (List.filter h l) = List.filter h (List.filter f l).
Proof.
  induction l as [|x l IH]; [reflexivity|]. cbn [List.filter].
  destruct (f x) eqn:Hf, (h x) eqn:Hh; cbn [List.filter]; rewrite ?Hf, ?Hh, IH; reflexivity.
Qed.

Lemma entries_updated_twice c g p h q :
  acl_safe g = true → acl_safe h = true → g ≠ h →
  char_free "," p = true → char_free "," q = true →
  entries (updated_acls (updated_acls c g p) h q) =
    List.filter (λ acl, negb (startswith acl (entry_prefix h)))
      (List.filter (λ acl, negb (startswith acl (entry_prefix g))) (entries c))
    ++ [new_acl g p; new_acl h q].
Proof.
  unfold acl_safe. intros [Hg Hg']%andb_true_iff [Hh Hh']%andb_true_iff Hne Hp Hq.
  rewrite entries_updated, entries_updated by assumption.
  rewrite List.filter_app. cbn [List.filter].
  rewrite new_acl_other_prefix by assumption. cbn [negb].
  by rewrite <- app_assoc.
Qed.

End MergeViewFacts.

Import MergeViewFacts.

(** ** The rows of the backup *)

Module BackupFacts.

Lemma backup_rows_In a c p acl line :
  In line (backup_rows a c p acl) ↔
  ∃ e, In e (entries acl) ∧ kept e = true ∧
       line = [a; c; or_root p; nth 1 (split ":" e) ""; nth 3 (split ":" e) ""].
Proof.
  unfold backup_rows. fold (entries acl). rewrite in_flat_map. split.
  - intros (e & He & Hline). exists e. split; [assumption|].
    fold (kept e) in Hline. destruct (kept e); [|done].
    destruct Hline as [<-|[]]. done.
  - intros (e & He & Hk & ->). exists e. split; [assumption|].
    fold (kept e). rewrite Hk. by left.
Qed.

Lemma entries_binds acl g v :
  (∃ e, In e (entries acl) ∧ binds e g v) ↔ (∃ e, In e (split "," acl) ∧ binds e g v).
Proof.
  unfold entries. destruct (is_empty acl) eqn:Hacl; [|reflexivity].
  apply is_empty_true in Hacl. subst acl. split.
  - by intros (e & [] & _).
  - intros (e & [<-|[]] & Hhd & _). discriminate Hhd.
Qed.

End BackupFacts.

Import BackupFacts.

(** ** The four ways a request ends *)

Module ShapeFacts.

Section Shape.
Context (graph_client : string → option (list string)) (client_ok : string → bool).
Context (row : Row) (w : World).

Lemma apply_shape :
  (client_ready client_ok row w = false ∧
   apply_acls_to_path graph_client client_ok row w = (ClientInitFailed, w, [])) ∨
  (client_ready client_ok row w = true ∧
   truthy (get_azure_ad_group_object_id graph_client (group_name row)) = None ∧
   apply_acls_to_path graph_client client_ok row w =
     (SkippedInvalidGroup,
      mkWorld (w_storage w) (clients_after row w) (w_backup_file w), [])) ∨
  (client_ready client_ok row w = true ∧
   (∃ gid, truthy (get_azure_ad_group_object_id graph_client (group_name row)) = Some gid) ∧
   truthy (get_environment_group graph_client (environment row)) = None ∧
   apply_acls_to_path graph_client client_ok row w =
     (SkippedInvalidEnvironmentGroup,
      mkWorld (w_storage w) (clients_after row w) (w_backup_file w), [])) ∨
  (∃ gid env,
     resolves graph_client client_ok row w gid env ∧
     apply_acls_to_path graph_client client_ok row w =
       (Processed,
        mkWorld (parents_phase row w gid env).1 (clients_after row w) (backup_file_after row w),
        backup_phase row w ++ (target_phase row w gid).2 ++ (parents_phase row w gid env).2)).
Proof.
  destruct (client_ready client_ok row w) eqn:Hc.
  2: { left. split; [reflexivity|]. unfold apply_acls_to_path.
       unfold client_ready in Hc. by apply orb_false_iff in Hc as [-> ->]. }
  right.
  assert (Hclients :
    (if bool_decide (storage row ∈ w_service_clients w)
     then Some (w_service_clients w)
     else if client_ok (storage row)
          then Some ({[storage row]} ∪ w_service_clients w) else None)
    = Some (clients_after row w)).
  { unfold clients_after. unfold client_ready in Hc.
    destruct (bool_decide _); [reflexivity|]. cbn in Hc. by rewrite Hc. }
  destruct (truthy (get_azure_ad_group_object_id graph_client (group_name row)))
    as [gid|] eqn:Hg.
  2: { left. split; [reflexivity|]. split; [reflexivity|].
       unfold apply_acls_to_path. by rewrite Hclients, Hg. }
  right.
  destruct (truthy (get_environment_group graph_client (environment row)))
    as [env|] eqn:He.
  2: { left. split; [reflexivity|]. split; [by exists gid|]. split; [reflexivity|].
       unfold apply_acls_to_path. by rewrite Hclients, Hg, He. }
  right. exists gid, env.
  assert (Hres : resolves graph_client client_ok row w gid env) by done.
  split; [exact Hres|].
  destruct (apply_processed _ _ _ _ _ _ Hres) as (clients & Heq). rewrite Heq.
  do 2 f_equal. f_equal.
  unfold apply_acls_to_path in Heq. rewrite Hclients, Hg, He in Heq.
  repeat (match type of Heq with context [let '(_, _) := ?x in _] => destruct x end).
  by injection Heq.
Qed.

End Shape.

End ShapeFacts.

Import ShapeFacts.

(** ** Directories created by a request *)

Module CreateFacts.

Lemma update_parents_create_iff a c env fu ps st p :
  NoDup ps →
  In (CreateDirectory p) (update_parents st a c ps env fu).2 ↔
  In p ps ∧ st !! (a, c, p) = None.
Proof.
  intros Hnd. revert st. induction Hnd as [|q ps Hq Hnd IH]; intros st.
  { simpl. tauto. }
  rewrite list_elem_of_In in Hq.
  rewrite update_parents_cons. cbn zeta. cbn [snd].
  set (cur := default "" (st !! (a, c, q))).
  set (up := parent_should_update cur env fu).
  set (st2 := if up then <[(a, c, q) := updated_acls cur env "--x"]> st else st).
  assert (Hst2 : ∀ p', In p' ps → st2 !! (a, c, p') = st !! (a, c, p')).
  { intros p' Hp'. subst st2. destruct up; [|done].
    apply lookup_insert_ne. intros [= ->]. contradiction. }
  rewrite !in_app_iff, IH. split.
  - intros [Hc|[Hs|(Hin & Hnone)]].
    + destruct (st !! (a, c, q)) eqn:Hst; simpl in Hc; [done|].
      destruct Hc as [[= <-]|[]]. split; [by left|assumption].
    + destruct up; [|done]. by destruct Hs as [[=]|[]].
    + rewrite Hst2 in Hnone by assumption. split; [by right|assumption].
  - intros ([<-|Hin] & Hnone).
    + left. rewrite Hnone. by left.
    + right; right. by rewrite Hst2.
Qed.

Section Created.
Context (graph_client : string → option (list string)) (client_ok : string → bool).
Context (row : Row) (w : World) (gid env : string).
Context (Hres : resolves graph_client client_ok row w gid env).

Lemma run_create_calls p :
  In (CreateDirectory p) (calls_of (apply_acls_to_path graph_client client_ok row w)) ↔
  (p = relative_of row ∨ In p (parents_of row)) ∧ w_storage w !! key_of row p = None.
Proof.
  rewrite (run_calls _ _ _ _ _ _ Hres), !in_app_iff. unfold parents_phase.
  rewrite update_parents_create_iff by apply parent_paths_NoDup.
  unfold target_phase at 1. rewrite update_target_calls, in_app_iff.
  fold (key_of row (relative_of row)). split.
  - intros [Hb|[[Hc|Ht]|(Hp & Hnone)]].
    + by apply backup_paths_no_mutation in Hb.
    + unfold created_calls in Hc.
      destruct (w_storage w !! key_of row (relative_of row)) eqn:Hst; [done|].
      destruct Hc as [[= <-]|[]]. split; [by left|assumption].
    + destruct (target_should_update _ _ _ _); [|done]. by destruct Ht as [[=]|[]].
    + fold (key_of row p) in Hnone. rewrite (target_phase_other _ _ _ p Hp) in Hnone.
      split; [by right|assumption].
  - intros ([->|Hp] & Hnone).
    + right; left; left. rewrite Hnone. by left.
    + right; right. split; [assumption|].
      fold (key_of row p). by rewrite (target_phase_other _ _ _ p Hp).
Qed.

Lemma run_created_written p :
  In (CreateDirectory p) (calls_of (apply_acls_to_path graph_client client_ok row w)) →
  written (calls_of (apply_acls_to_path graph_client client_ok row w)) p.
Proof.
  intros ([->|Hp] & Hnone)%run_create_calls.
  - eexists _, _. apply (run_set_calls _ _ _ _ _ _ Hres). left.
    split; [reflexivity|]. split; [|done].
    unfold current_acls_of. rewrite Hnone. apply target_should_update_empty.
  - eexists _, _. apply (run_set_calls _ _ _ _ _ _ Hres). right.
    split; [assumption|]. split; [reflexivity|]. split; [|reflexivity].
    rewrite Hnone. apply parent_should_update_empty.
Qed.

Lemma run_touched_exists k :
  touches row k →
  is_Some (w_storage (world_of (apply_acls_to_path graph_client client_ok row w)) !! k).
Proof.
  intros [->|(p & Hp & ->)].
  - by rewrite (run_storage_target _ _ _ _ _ _ Hres).
  - by rewrite (run_storage_parent _ _ _ _ _ _ Hres p Hp).
Qed.

End Created.

(** Storage of any request, whatever its outcome. *)
Section AnyRequest.
Context (graph_client : string → option (list string)) (client_ok : string → bool).
Context (row : Row) (w : World).





Lemma apply_clients :
  w_service_clients (world_of (apply_acls_to_path graph_client client_ok row w))
  = if client_ready client_ok row w
    then {[storage row]} ∪ w_service_clients w
    else w_service_clients w.
Proof.
  assert (Hafter : clients_after row w = {[storage row]} ∪ w_service_clients w).
  { unfold clients_after. case_bool_decide as Hin; [|reflexivity].
    symmetry. apply subseteq_union_1_L. by apply singleton_subseteq_l. }
  destruct (apply_shape graph_client client_ok row w)
    as [(-> & ->)|[(-> & _ & ->)|[(-> & _ & _ & ->)|(gid & env & (-> & _) & ->)]]];
    done.
Qed.

End AnyRequest.

End CreateFacts.

Import CreateFacts.

(** ** What a processed request leaves on its chain *)

Module ChainFacts.

Section Chain.
Context (graph_client : string → option (list string)) (client_ok : string → bool).
Context (row : Row) (w : World) (gid env : string).
Context (Hres : resolves graph_client client_ok row w gid env).

Let r := apply_acls_to_path graph_client client_ok row w.

Lemma target_written_iff :
  written (calls_of r) (relative_of row) ↔
  target_should_update (current_acls_of row w) gid (permission row) (force_update_of row) = true.
Proof.
  subst r. rewrite (written_iff_policy _ _ _ _ _ _ Hres).
  symmetry. apply target_should_update_iff.
Qed.

Lemma target_final :
  w_storage (world_of r) !! key_of row (relative_of row) =
    Some (if target_should_update (current_acls_of row w) gid (permission row)
               (force_update_of row)
          then updated_acls (current_acls_of row w) gid (parse_permission (permission row))
          else current_acls_of row w).
Proof. subst r. by rewrite (run_storage_target _ _ _ _ _ _ Hres). Qed.

Lemma target_skipped_existed :
  target_should_update (current_acls_of row w) gid (permission row) (force_update_of row) = false →
  w_storage w !! key_of row (relative_of row) = Some (current_acls_of row w).
Proof.
  unfold current_acls_of.
  destruct (w_storage w !! key_of row (relative_of row)); [done|].
  cbn [default]. by rewrite target_should_update_empty.
Qed.

Lemma parent_written_iff p :
  In p (parents_of row) →
  written (calls_of r) p ↔
  parent_should_update (default "" (w_storage w !! key_of row p)) env (force_update_of row) = true.
Proof.
  intros Hp. subst r. split.
  - intros (acl & mode & [(-> & _)|(_ & _ & Hup & _)]%(run_set_calls _ _ _ _ _ _ Hres));
      [|assumption].
    exfalso. by apply (relative_not_parent (path_parts_of (path row))).
  - intros Hup. eexists _, _. apply (run_set_calls _ _ _ _ _ _ Hres). right. done.
Qed.

Lemma parent_final p :
  In p (parents_of row) →
  w_storage (world_of r) !! key_of row p =
    Some (if parent_should_update (default "" (w_storage w !! key_of row p)) env
               (force_update_of row)
          then updated_acls (default "" (w_storage w !! key_of row p)) env "--x"
          else default "" (w_storage w !! key_of row p)).
Proof. intros Hp. subst r. by rewrite (run_storage_parent _ _ _ _ _ _ Hres p Hp). Qed.

Lemma parent_skipped_existed p :
  parent_should_update (default "" (w_storage w !! key_of row p)) env (force_update_of row)
  = false →
  w_storage w !! key_of row p = Some (default "" (w_storage w !! key_of row p)).
Proof.
  destruct (w_storage w !! key_of row p); [done|].
  cbn [default]. by rewrite parent_should_update_empty.
Qed.

End Chain.




End ChainFacts.

Import ChainFacts.

Import ChainFacts.

(** ** Slashes around and inside a path *)

Module StripFacts.

Lemma lstrip_slashes c n s :
  c = "/"%char → lstrip c (slashes n +:+ s) = lstrip c s.
Proof.
  intros ->. induction n as [|n IH]; [by rewrite app_empty_str|].
  cbn [slashes]. rewrite app_cons_str. cbn [lstrip]. by rewrite Ascii.eqb_refl.
Qed.

Lemma rstrip_app_sep c s : rstrip c (s +:+ String c "") = rstrip c s.
Proof.
  induction s as [|a s IH].
  - rewrite app_empty_str. cbn [rstrip]. by rewrite Ascii.eqb_refl.
  - rewrite app_cons_str. cbn [rstrip]. by rewrite IH.
Qed.

Lemma lstrip_app_sep c s :
  lstrip c (s +:+ String c "") =
    if is_empty (lstrip c s) then "" else lstrip c s +:+ String c "".
Proof.
  induction s as [|a s IH].
  - rewrite app_empty_str. cbn [lstrip is_empty]. by rewrite Ascii.eqb_refl.
  - rewrite app_cons_str. cbn [lstrip].
    destruct (Ascii.eqb a c); [exact IH|]. cbn [is_empty]. by rewrite app_cons_str.
Qed.

Lemma strip_app_sep c s : strip c (s +:+ String c "") = strip c s.
Proof.
  unfold strip. rewrite lstrip_app_sep.
  destruct (lstrip c s) as [|a t] eqn:Hl; [reflexivity|].
  cbn [is_empty]. apply rstrip_app_sep.
Qed.

Lemma strip_app_slashes n s : strip "/" (s +:+ slashes n) = strip "/" s.
Proof.
  revert s. induction n as [|n IH]; intros s.
  - cbn [slashes]. f_equal. induction s as [|a s IHs]; [reflexivity|].
    by rewrite app_cons_str, IHs.
  - cbn [slashes].
    change (String "/" (slashes n)) with (String "/" "" +:+ slashes n).
    rewrite <- app_assoc_str, IH. apply strip_app_sep.
Qed.

Lemma strip_outer_slashes n m s : strip "/" (slashes n +:+ s +:+ slashes m) = strip "/" s.
Proof.
  rewrite <- (strip_app_slashes m s). unfold strip.
  by rewrite (lstrip_slashes "/" n (s +:+ slashes m)).
Qed.

Lemma rstrip_no_trailing c s : endswith_char c (rstrip c s) = false.
Proof.
  induction s as [|a s IH]; [reflexivity|]. cbn [rstrip].
  destruct (rstrip c s) as [|b r].
  - destruct (Ascii.eqb a c) eqn:Ha; [reflexivity|]. cbn [endswith_char]. exact Ha.
  - exact IH.
Qed.

Lemma endswith_app_sep c s : endswith_char c (s +:+ String c "") = true.
Proof.
  induction s as [|a s IH].
  - rewrite app_empty_str. cbn [endswith_char]. apply Ascii.eqb_refl.
  - rewrite app_cons_str. cbn [endswith_char].
    destruct (s +:+ String c "") eqn:Hs; [|exact IH].
    destruct s; discriminate Hs.
Qed.

Lemma join_eq_empty c l : join c l = "" → l = [] ∨ l = [""].
Proof.
  destruct l as [|x [|y l]]; [by left| |].
  - cbn. intros ->. by right.
  - rewrite join_cons. destruct x; [|by rewrite app_cons_str].
    by rewrite app_empty_str.
Qed.

Lemma split_head_free c s x l : split c s = x :: l → char_free c x = true.
Proof.
  intros Hs. pose proof (split_all_char_free c s) as Hall.
  rewrite Hs in Hall. by inversion Hall.
Qed.

(** The stripped path has no empty last segment, unless it is empty. *)
Lemma relative_empty_single path :
  is_empty (relative_path_of (path_parts_of path)) = true ↔ length (path_parts_of path) = 1.
Proof.
  split.
  - intros Hrel%is_empty_true.
    pose proof (path_parts_not_nil path) as Hnil.
    pose proof (join_split "/" (strip "/" path)) as Hjoin.
    pose proof (rstrip_no_trailing "/" (lstrip "/" path)) as Hlast.
    fold (strip "/" path) in Hlast. fold (path_parts_of path) in Hjoin.
    rewrite relative_path_spec in Hrel.
    destruct (path_parts_of path) as [|c [|x rest]]; [done|reflexivity|].
    exfalso. cbn [skipn] in Hrel.
    apply join_eq_empty in Hrel as [Hrel|Hrel]; [done|].
    injection Hrel as -> ->.
    rewrite <- Hjoin, join_cons in Hlast.
    change (String "/" (join "/" [""])) with (String "/" "") in Hlast.
    by rewrite endswith_app_sep in Hlast.
  - intros Hlen. unfold relative_path_of. by rewrite Hlen.
Qed.

Lemma parent_is_prefix parts p :
  In p (parent_paths_of parts) →
  ∃ rest, relative_path_of parts = p +:+ String "/" rest.
Proof.
  rewrite parent_paths_spec, relative_path_spec, in_map_iff.
  intros (i & <- & [Hi1 Hi2]%in_seq).
  assert (Hlen : length (skipn 1 parts) = length parts - 1) by apply length_drop.
  exists (join "/" (skipn i (skipn 1 parts))).
  rewrite <- (firstn_skipn i (skipn 1 parts)) at 1.
  apply join_app.
  - intros Hnil. apply (f_equal (@length string)) in Hnil.
    rewrite length_take in Hnil. simpl in Hnil. lia.
  - intros Hnil. apply (f_equal (@length string)) in Hnil.
    rewrite length_drop in Hnil. simpl in Hnil. lia.
Qed.

End StripFacts.

Import StripFacts.

(** ** The batch *)

Module BatchFacts.

Lemma has_required_columns_iff row :
  has_required_columns row = true ↔ ∀ col, In col required_columns → is_Some (row !! col).
Proof.
  unfold has_required_columns. rewrite forallb_forall.
  split; intros H col Hcol; specialize (H col Hcol).
  - by apply bool_decide_eq_true in H.
  - by apply bool_decide_eq_true.
Qed.


Lemma has_required_columns_insert row k v :
  ¬ In k required_columns →
  has_required_columns (<[k := v]> row) = has_required_columns row.
Proof.
  intros Hk. apply eq_iff_eq_true. rewrite !has_required_columns_iff.
  split; intros H col Hcol; specialize (H col Hcol).
  - by rewrite lookup_insert_ne in H by (intros ->; done).
  - by rewrite lookup_insert_ne by (intros ->; done).
Qed.

Lemma row_of_dict_insert row k v :
  ¬ In k required_columns → row_of_dict (<[k := v]> row) = row_of_dict row.
Proof.
  intros Hk. unfold row_of_dict.
  rewrite !lookup_insert_ne; [reflexivity|..]; intros ->; apply Hk; cbn; tauto.
Qed.



Section Batch.
Context (graph_client : string → option (list string)) (client_ok : string → bool).

Lemma run_tasks_cons row rows w :
  run_tasks graph_client client_ok (row :: rows) w =
    ((run_tasks graph_client client_ok rows (world_of (apply_acls_to_path graph_client client_ok (row_of_dict row) w))).1,
     (outcome_of (apply_acls_to_path graph_client client_ok (row_of_dict row) w), calls_of (apply_acls_to_path graph_client client_ok (row_of_dict row) w))
     :: (run_tasks graph_client client_ok rows (world_of (apply_acls_to_path graph_client client_ok (row_of_dict row) w))).2).
Proof.
  cbn [run_tasks]. destruct (apply_acls_to_path graph_client client_ok (row_of_dict row) w) as [[outcome w1] calls].
  unfold world_of, outcome_of, calls_of. cbn [fst snd].
  by destruct (run_tasks graph_client client_ok rows w1).
Qed.

Lemma run_tasks_map_insert k (v : gmap string string → string) rows w :
  ¬ In k required_columns →
  run_tasks graph_client client_ok (map (λ row, <[k := v row]> row) rows) w
  = run_tasks graph_client client_ok rows w.
Proof.
  intros Hk. revert w. induction rows as [|row rows IH]; intros w; [reflexivity|].
  cbn [map]. rewrite !run_tasks_cons, row_of_dict_insert by assumption.
  by rewrite IH.
Qed.

Lemma filter_map_insert k (v : gmap string string → string) rows :
  ¬ In k required_columns →
  List.filter has_required_columns (map (λ row, <[k := v row]> row) rows)
  = map (λ row, <[k := v row]> row) (List.filter has_required_columns rows).
Proof.
  intros Hk. induction rows as [|row rows IH]; [reflexivity|].
  cbn [map List.filter]. rewrite has_required_columns_insert by assumption.
  destruct (has_required_columns row); cbn [map]; by rewrite IH.
Qed.









End Batch.

End BatchFacts.

Import BatchFacts.

(** * The properties of the specification *)

(** C1 (as stated fails).  A read request without force on a target whose
    ACL holds the entry [group:a1:0:] - an entry for the group, with an
    empty triplet - does write the target, although the request is not
    forced, an entry for the group exists, and the permission is not
    Write. *)
Lemma update_policy_stated_fails :
  ¬ (written (calls_of (apply_acls_to_path sample_directory always_ok
                          (sample_row "data/team" "R" "false")
                          (world_with "team" "group:a1:0:")))
             (relative_of (sample_row "data/team" "R" "false"))
     ↔ update_policy_stated (sample_row "data/team" "R" "false")
                            (world_with "team" "group:a1:0:") "a1").
Proof.
  intros [Hstated _].
  assert (Hwritten : written (calls_of (apply_acls_to_path sample_directory always_ok
                                          (sample_row "data/team" "R" "false")
                                          (world_with "team" "group:a1:0:")))
                             (relative_of (sample_row "data/team" "R" "false"))).
  { exists "group:a1:r-x", ModeModify. vm_compute. auto. }
  destruct (Hstated Hwritten) as [Hforce|[Hnone|[Hwrite _]]].
  - vm_compute in Hforce. discriminate Hforce.
  - vm_compute in Hnone. discriminate Hnone.
  - vm_compute in Hwrite. discriminate Hwrite.
Qed.

(** C1 (amended).  For every request that reaches its target, a write is
    issued on the target if and only if forceUpdate is true, or the codec
    reads no triplet or an empty one for the resolved group id, or the
    permission string is ["W"] and the group's current triplet is not
    [rwx]; the write then commits the new entry of the group, and
    otherwise no write is issued on the target. *)
Theorem update_policy_decides graph_client client_ok row w gid env :
  resolves graph_client client_ok row w gid env →
  let r := apply_acls_to_path graph_client client_ok row w in
  (written (calls_of r) (relative_of row) ↔ update_policy row w gid) ∧
  (update_policy row w gid →
   In (SetAccessControlRecursive (relative_of row)
         (updated_acls (current_acls_of row w) gid (parse_permission (permission row)))
         (if force_propagation_of row then ModeSet else ModeModify))
      (calls_of r)) ∧
  (¬ update_policy row w gid →
   ∀ acl mode, ¬ In (SetAccessControlRecursive (relative_of row) acl mode) (calls_of r)).
Proof.
  intros Hres r. subst r. split; [|split].
  - by eapply written_iff_policy.
  - by eapply policy_target_write.
  - intros Hno acl mode Hcall. apply Hno. by eapply target_write_policy.
Qed.

Lemma update_policy_decides_witness :
  resolves sample_directory always_ok (sample_row "data/team/reports" "W" "false")
           (world_with "team/reports" "group:a1:0:r-x") "a1" "p1" ∧
  written (calls_of (apply_acls_to_path sample_directory always_ok
                       (sample_row "data/team/reports" "W" "false")
                       (world_with "team/reports" "group:a1:0:r-x")))
          (relative_of (sample_row "data/team/reports" "W" "false")).
Proof.
  assert (Hres : resolves sample_directory always_ok (sample_row "data/team/reports" "W" "false")
                   (world_with "team/reports" "group:a1:0:r-x") "a1" "p1")
    by (repeat split).
  split; [exact Hres|].
  destruct (update_policy_decides _ _ _ _ _ _ Hres) as ([_ Hto] & _).
  apply Hto. right; right. split; [reflexivity|]. vm_compute. discriminate.
Defined.

(** C2.  Applying the same request twice in a row with forceUpdate false
    leaves, after the second application, the ACL of the target and of
    every ancestor - indeed the whole storage - as the first application
    left it: the ACL sets read there are the same, and every write the
    second application issues commits the very text the directory
    already holds, so no entry is duplicated and no grant escalated.
    Object ids of the directory are free of the entry separator [,]. *)
Theorem second_application_changes_nothing graph_client client_ok row w :
  ids_comma_free graph_client →
  force_update_of row = false →
  let w1 := world_of (apply_acls_to_path graph_client client_ok row w) in
  let r2 := apply_acls_to_path graph_client client_ok row w1 in
  w_storage (world_of r2) = w_storage w1 ∧
  (∀ p, p = relative_of row ∨ In p (parents_of row) →
        parse_acls (default "" (w_storage (world_of r2) !! key_of row p))
        = parse_acls (default "" (w_storage w1 !! key_of row p))) ∧
  (∀ p acl mode,
      In (SetAccessControlRecursive p acl mode) (calls_of r2) →
      w_storage w1 !! key_of row p = Some acl).
Proof.
  intros Hids _ w1 r2.
  assert (Hsame : w_storage (world_of r2) = w_storage w1).
  { subst r2 w1. destruct (client_ready client_ok row w) eqn:Hc.
    - destruct (apply_storage_cases graph_client client_ok row
                  (world_of (apply_acls_to_path graph_client client_ok row w)))
        as [-> | ->]; [|reflexivity].
      rewrite (apply_storage_ready _ _ _ _ Hc). by apply reconciled_idem.
    - rewrite (apply_no_client _ _ _ _ Hc). unfold world_of at 2 3. cbn [fst snd].
      by rewrite (apply_no_client _ _ _ _ Hc). }
  split; [exact Hsame|]. split.
  - intros p _. by rewrite Hsame.
  - intros p acl mode Hcall. rewrite <- Hsame.
    destruct (apply_cases graph_client client_ok row w1)
      as [(gid & env & Hres)|(out & clients & Heq & _)].
    + by apply (run_set_final _ _ _ _ _ _ Hres) in Hcall.
    + subst r2. rewrite Heq in Hcall. destruct Hcall.
Qed.

Lemma second_application_changes_nothing_witness :
  ids_comma_free sample_directory ∧
  force_update_of (sample_row "data/team/sub/reports" "W" "false") = false ∧
  w_storage (world_of (apply_acls_to_path sample_directory always_ok
                         (sample_row "data/team/sub/reports" "W" "false")
                         (world_of (apply_acls_to_path sample_directory always_ok
                                      (sample_row "data/team/sub/reports" "W" "false")
                                      (world_with "team/sub/reports" "group:a1:0:r-x")))))
  = w_storage (world_of (apply_acls_to_path sample_directory always_ok
                           (sample_row "data/team/sub/reports" "W" "false")
                           (world_with "team/sub/reports" "group:a1:0:r-x"))).
Proof.
  assert (Hids : ids_comma_free sample_directory).
  { intros name id. unfold get_azure_ad_group_object_id, sample_directory.
    repeat (destruct (String.eqb name _)); intros [= <-]; reflexivity. }
  split; [exact Hids|]. split; [reflexivity|].
  destruct (second_application_changes_nothing sample_directory always_ok
              (sample_row "data/team/sub/reports" "W" "false")
              (world_with "team/sub/reports" "group:a1:0:r-x") Hids eq_refl) as (H & _).
  exact H.
Defined.

(** C3.  Merging an entry for a group identity into an ACL text removes
    every entry of that identity and then appends the new one, so the
    merged identity has exactly one entry whatever the text held; and a
    text with at most one entry per group identity still has at most one
    after the merge, and after any further sequence of merges.
    Identities are identifiers free of the separators [,] and [:],
    triplets free of [,]. *)
Theorem merge_keeps_identities_unique acl g p merges :
  acl_safe g = true →
  char_free "," p = true →
  Forall (λ m : string * string, acl_safe m.1 = true ∧ char_free "," m.2 = true) merges →
  at_most_one_per_identity acl →
  entries (updated_acls acl g p) =
    List.filter (λ e, negb (bool_decide (entry_identity e = Some g))) (entries acl)
    ++ [new_acl g p] ∧
  entry_identity (new_acl g p) = Some g ∧
  length (List.filter (λ e, bool_decide (entry_identity e = Some g))
                      (entries (updated_acls acl g p))) = 1 ∧
  at_most_one_per_identity (updated_acls acl g p) ∧
  at_most_one_per_identity (merge_all acl ((g, p) :: merges)).
Proof.
  intros Hg Hp Hmerges Hacl.
  pose proof Hg as [Hcomma Hcolon]%andb_true_iff.
  assert (Hentries : entries (updated_acls acl g p) =
            List.filter (λ e, negb (bool_decide (entry_identity e = Some g))) (entries acl)
            ++ [new_acl g p])
    by (by rewrite entries_updated, filter_prefix_identity).
  split; [exact Hentries|]. split; [by apply entry_identity_new|].
  split; [|split].
  - rewrite Hentries, List.filter_app, filter_none_of. cbn [List.filter app].
    rewrite entry_identity_new by assumption.
    by rewrite bool_decide_eq_true_2.
  - by apply merge_step_unique.
  - apply merge_all_unique; [|assumption]. by constructor.
Qed.

Lemma merge_keeps_identities_unique_witness :
  acl_safe "g1" = true ∧
  char_free "," "rwx" = true ∧
  at_most_one_per_identity "group:g1:0:r-x,user::rwx,group:g2:r-x" ∧
  entries (updated_acls "group:g1:0:r-x,user::rwx,group:g2:r-x" "g1" "rwx") =
    ["user::rwx"; "group:g2:r-x"; "group:g1:rwx"] ∧
  at_most_one_per_identity
    (merge_all "group:g1:0:r-x,user::rwx,group:g2:r-x"
               [("g1", "rwx"); ("g2", "--x"); ("g1", "r-x")]).
Proof.
  assert (Hacl : at_most_one_per_identity "group:g1:0:r-x,user::rwx,group:g2:r-x").
  { intros h. cbn. repeat case_bool_decide; simplify_eq; cbn; lia. }
  assert (Hmerges : Forall (λ m : string * string,
                              acl_safe m.1 = true ∧ char_free "," m.2 = true)
                           [("g2", "--x"); ("g1", "r-x")])
    by (repeat constructor).
  split; [reflexivity|]. split; [reflexivity|]. split; [exact Hacl|].
  destruct (merge_keeps_identities_unique _ "g1" "rwx" _ eq_refl eq_refl Hmerges Hacl)
    as (Hentries & _ & _ & _ & Hall).
  split; [|exact Hall]. rewrite Hentries. reflexivity.
Defined.



(** C5.  Every write on the target path is committed with mode [set]
    (overwrite) when forcePropagation is true and [modify] (merge) when it
    is false; every write on an ancestor is committed with mode [set],
    whatever forcePropagation is.  The request writes no other path, and
    the target is never one of its ancestors. *)
Theorem write_modes graph_client client_ok row w p acl mode :
  In (SetAccessControlRecursive p acl mode)
     (calls_of (apply_acls_to_path graph_client client_ok row w)) →
  (p = relative_of row ∧ ¬ In p (parents_of row) ∧
   mode = if force_propagation_of row then ModeSet else ModeModify) ∨
  (In p (parents_of row) ∧ p ≠ relative_of row ∧ mode = ModeSet).
Proof.
  destruct (apply_cases graph_client client_ok row w)
    as [(gid & env & Hres)|(out & clients & -> & _)]; [|done].
  intros [(-> & _ & _ & ->)|(Hp & -> & _)]%(run_set_calls _ _ _ _ _ _ Hres).
  - left. split; [reflexivity|]. split; [|reflexivity].
    apply (relative_not_parent (path_parts_of (path row))).
  - right. split; [assumption|]. split; [|reflexivity].
    intros ->. by apply (relative_not_parent (path_parts_of (path row))).
Qed.

Lemma write_modes_witness :
  In (SetAccessControlRecursive "team" "group:p1:--x" ModeSet)
     (calls_of (apply_acls_to_path sample_directory always_ok
                  (mkRow "pro" "acct1" "data/team/reports" "analysts" "W" "false" "true")
                  empty_world)) ∧
  In (SetAccessControlRecursive "team/reports" "group:a1:rwx" ModeSet)
     (calls_of (apply_acls_to_path sample_directory always_ok
                  (mkRow "pro" "acct1" "data/team/reports" "analysts" "W" "false" "true")
                  empty_world)) ∧
  ("team" ≠ "team/reports" ∧ ModeSet = ModeSet).
Proof.
  assert (H1 : In (SetAccessControlRecursive "team" "group:p1:--x" ModeSet)
     (calls_of (apply_acls_to_path sample_directory always_ok
                  (mkRow "pro" "acct1" "data/team/reports" "analysts" "W" "false" "true")
                  empty_world))) by (vm_compute; tauto).
  split; [exact H1|]. split; [vm_compute; tauto|].
  destruct (write_modes _ _ _ _ _ _ _ H1) as [(Heq & _)|(_ & Hne & Hmode)].
  - vm_compute in Heq. discriminate Heq.
  - split; [exact Hne|exact Hmode].
Defined.




(** C7.  [parse_acls] of the empty text is the empty set; in general it
    has a binding for a group id exactly when some comma-separated entry
    for that id has the group scope token as first field and at least
    four colon-separated fields - all other entries are dropped - and the
    triplet bound is that of the last such entry; so the sample text of
    the specification yields exactly g1 -> r-x and g2 -> rwx. *)
Theorem parse_acls_keeps_group_entries :
  parse_acls "" = ∅ ∧
  (∀ acl g,
      is_Some (parse_acls acl !! g) ↔
      ∃ entry v, In entry (split "," acl) ∧ binds entry g v) ∧
  (∀ acl g v,
      parse_acls acl !! g = Some v ↔
      ∃ before entry after,
        split "," acl = before ++ entry :: after ∧ binds entry g v ∧
        ∀ e v', In e after → ¬ binds e g v') ∧
  parse_acls "group:g1:0:r-x,garbage,group:g2:0:rwx" = {[ "g1" := "r-x"; "g2" := "rwx" ]}.
Proof.
  assert (Hempty : ∀ g v, ¬ binds "" g v).
  { intros g v (Hhd & _). discriminate Hhd. }
  split; [reflexivity|]. split; [|split; [|by vm_compute]].
  - intros acl g. rewrite parse_acls_entries. unfold entries.
    destruct (is_empty acl) eqn:Hacl.
    + apply is_empty_true in Hacl. subst acl. cbn [foldl split].
      rewrite lookup_empty. split; [by intros [? ?]|].
      intros (entry & v & [<-|[]] & Hb). by destruct (Hempty g v).
    + rewrite parse_fold_is_Some, lookup_empty. split.
      * intros [[? [=]]|H]. exact H.
      * intros H. by right.
  - intros acl g v. rewrite parse_acls_entries. unfold entries.
    destruct (is_empty acl) eqn:Hacl.
    + apply is_empty_true in Hacl. subst acl. cbn [foldl split].
      rewrite lookup_empty. split; [done|].
      intros (before & entry & after & Heq & Hb & _). exfalso.
      destruct before as [|b [|b' before]]; try discriminate.
      injection Heq as <- <-. by destruct (Hempty g v).
    + rewrite parse_fold_lookup, lookup_empty. split.
      * intros [H|[[=] _]]. exact H.
      * intros H. by left.
Qed.




(** C9.  When the look-up of the request's group or of the environment
    group yields no identity, the request ends skipped: it issues no call
    at all, so no directory is created and no ACL written, and the
    storage and the backup file are as before.  With a service client at
    hand the outcome is one of the two skips. *)
Theorem resolution_failure_skips graph_client client_ok row w :
  truthy (get_azure_ad_group_object_id graph_client (group_name row)) = None ∨
  truthy (get_environment_group graph_client (environment row)) = None →
  let r := apply_acls_to_path graph_client client_ok row w in
  outcome_of r ≠ Processed ∧
  (client_ready client_ok row w = true →
   outcome_of r = SkippedInvalidGroup ∨ outcome_of r = SkippedInvalidEnvironmentGroup) ∧
  calls_of r = [] ∧
  (∀ call, In call (calls_of r) → is_mutation call = false) ∧
  w_storage (world_of r) = w_storage w ∧
  w_backup_file (world_of r) = w_backup_file w.
Proof.
  intros Hfail.
  destruct (apply_unresolved graph_client client_ok row w Hfail)
    as (out & clients & Heq & Hout).
  cbn zeta. rewrite Heq. unfold outcome_of, world_of, calls_of. cbn [fst snd w_storage w_backup_file].
  repeat split; try done.
  - by destruct Hout as [[-> _]|[[-> _]|[-> _]]].
  - intros Hc. destruct Hout as [[_ Hc']|[[-> _]|[-> _]]]; [congruence|by left|by right].
Qed.

Lemma resolution_failure_skips_witness :
  truthy (get_azure_ad_group_object_id sample_directory (group_name unknown_group_row)) = None ∧
  calls_of (apply_acls_to_path sample_directory always_ok unknown_group_row
              (world_with "team/reports" "group:a1:0:r-x")) = [].
Proof.
  split; [reflexivity|].
  pose proof (resolution_failure_skips sample_directory always_ok unknown_group_row
                (world_with "team/reports" "group:a1:0:r-x") (or_introl eq_refl))
    as (_ & _ & Hcalls & _).
  exact Hcalls.
Defined.

(** C10.  The permission string ["w"] is given the triplet [rwx], yet the
    escalation test of line 164 compares the string itself with ["W"]:
    without force, a ["w"] request on a target where the group holds
    [r-x] issues no write and leaves the ACL as it is, while the same
    request on a target with no entry for the group commits
    [group:<id>:rwx]. *)
Theorem lowercase_write_request graph_client client_ok row w gid env :
  resolves graph_client client_ok row w gid env →
  permission row = "w" →
  force_update_of row = false →
  let r := apply_acls_to_path graph_client client_ok row w in
  parse_permission (permission row) = "rwx" ∧
  (current_perm_of row w gid = "r-x" →
   ¬ written (calls_of r) (relative_of row) ∧
   w_storage (world_of r) !! key_of row (relative_of row)
   = w_storage w !! key_of row (relative_of row)) ∧
  (parse_acls (current_acls_of row w) !! gid = None →
   In (SetAccessControlRecursive (relative_of row)
         (updated_acls (current_acls_of row w) gid "rwx")
         (if force_propagation_of row then ModeSet else ModeModify))
      (calls_of r) ∧
   w_storage (world_of r) !! key_of row (relative_of row)
   = Some (updated_acls (current_acls_of row w) gid "rwx")).
Proof.
  intros Hres Hperm Hforce r.
  assert (Hrwx : parse_permission (permission row) = "rwx") by (by rewrite Hperm).
  pose proof (written_iff_policy _ _ _ _ _ _ Hres) as Hiff.
  pose proof (policy_target_write _ _ _ _ _ _ Hres) as Hyes.
  fold r in Hiff, Hyes.
  split; [exact Hrwx|]. split.
  - intros Hcur.
    assert (Hpol : ¬ update_policy row w gid).
    { intros [Hf|[He|[Hw _]]]; congruence. }
    split; [by rewrite Hiff|].
    subst r. rewrite (run_storage_target _ _ _ _ _ _ Hres). unfold target_value.
    fold (current_acls_of row w).
    destruct (target_should_update _ _ _ _) eqn:Hup;
      [by apply target_should_update_iff in Hup|].
    unfold current_acls_of, current_perm_of, current_acls_of in *.
    destruct (w_storage w !! key_of row (relative_of row)); [reflexivity|].
    cbn in Hcur. rewrite lookup_empty in Hcur. discriminate Hcur.
  - intros Hnone.
    assert (Hpol : update_policy row w gid).
    { right; left. unfold current_perm_of. by rewrite Hnone. }
    rewrite <- Hrwx. split; [by apply Hyes|].
    subst r. rewrite (run_storage_target _ _ _ _ _ _ Hres). unfold target_value.
    fold (current_acls_of row w).
    apply target_should_update_iff in Hpol. by rewrite Hpol.
Qed.

Lemma lowercase_write_request_witness :
  resolves sample_directory always_ok (sample_row "data/team" "w" "false")
           (world_with "team" "group:a1:0:r-x") "a1" "p1" ∧
  permission (sample_row "data/team" "w" "false") = "w" ∧
  force_update_of (sample_row "data/team" "w" "false") = false ∧
  ¬ written (calls_of (apply_acls_to_path sample_directory always_ok
                         (sample_row "data/team" "w" "false")
                         (world_with "team" "group:a1:0:r-x")))
            (relative_of (sample_row "data/team" "w" "false")).
Proof.
  assert (Hres : resolves sample_directory always_ok (sample_row "data/team" "w" "false")
                   (world_with "team" "group:a1:0:r-x") "a1" "p1")
    by (repeat split).
  split; [exact Hres|]. split; [reflexivity|]. split; [reflexivity|].
  destruct (lowercase_write_request _ _ _ _ _ _ Hres eq_refl eq_refl) as (_ & Hkeep & _).
  apply Hkeep. reflexivity.
Defined.


(** * Further properties of the code *)

(** X1.  [parse_permission] never yields anything but [r-x] or [rwx]; it
    yields [rwx] exactly for the permission strings ["W"] and ["w"], and
    it does not tell a string from its upper-case or lower-case form. *)
Theorem parse_permission_write_only_for_w permission :
  (parse_permission permission = "rwx" ↔ permission = "W" ∨ permission = "w") ∧
  (parse_permission permission ≠ "rwx" → parse_permission permission = "r-x") ∧
  parse_permission (upper permission) = parse_permission permission ∧
  parse_permission (lower permission) = parse_permission permission.
Proof.
  split; [|split; [|split]].
  - rewrite <- upper_W, parse_permission_upper.
    destruct (String.eqb_spec (upper permission) "R") as [HR|HR].
    + rewrite HR. split; discriminate.
    + destruct (String.eqb_spec (upper permission) "W"); split; congruence.
  - rewrite parse_permission_upper. by repeat case_match.
  - unfold parse_permission, upper.
    by rewrite (map_chars_compose upper_char upper_char upper_char)
      by (by intros [[] [] [] [] [] [] [] []]).
  - unfold parse_permission. by rewrite upper_lower.
Qed.

(** X2.  [get_environment_group] reads the environment without regard to
    letter case, and every environment other than pre and pro - dev
    itself, the empty string, a misspelling - resolves to the group of
    dev. *)
Theorem environment_group_falls_back_to_dev graph_client environment :
  get_environment_group graph_client (upper environment)
  = get_environment_group graph_client environment ∧
  get_environment_group graph_client (lower environment)
  = get_environment_group graph_client environment ∧
  (lower environment = "pre" →
   get_environment_group graph_client environment
   = get_azure_ad_group_object_id graph_client "grupo_pre") ∧
  (lower environment = "pro" →
   get_environment_group graph_client environment
   = get_azure_ad_group_object_id graph_client "grupo_pro") ∧
  (lower environment ≠ "pre" → lower environment ≠ "pro" →
   get_environment_group graph_client environment
   = get_azure_ad_group_object_id graph_client "grupo_dev").
Proof.
  unfold get_environment_group. rewrite lower_upper, lower_lower.
  split; [reflexivity|]. split; [reflexivity|].
  split; [by intros ->|]. split; [by intros ->|].
  intros Hpre Hpro.
  destruct (decide (lower environment = "dev")) as [->|Hdev]; [reflexivity|].
  by rewrite !lookup_insert_ne, lookup_singleton_ne.
Qed.

Lemma environment_group_falls_back_to_dev_witness :
  lower "Staging" ≠ "pre" ∧ lower "Staging" ≠ "pro" ∧
  get_environment_group sample_directory "Staging" = Some "d1" ∧
  get_environment_group sample_directory "PRO" = Some "p1".
Proof.
  destruct (environment_group_falls_back_to_dev sample_directory "Staging")
    as (_ & _ & _ & _ & Hdev).
  destruct (environment_group_falls_back_to_dev sample_directory "PRO")
    as (_ & _ & _ & Hpro & _).
  split; [discriminate|]. split; [discriminate|]. split.
  - rewrite Hdev; [reflexivity|discriminate|discriminate].
  - rewrite Hpro; reflexivity.
Defined.

(** X3.  Seen through [parse_acls], the merge the program commits takes
    the group's binding away and leaves every other binding as it was:
    the entry written, of three fields, is not one the codec reads back.
    Identities are free of [,] and [:], triplets too. *)
Theorem merge_hides_the_grant_from_the_codec current_acls g p :
  acl_safe g = true → char_free "," p = true → char_free ":" p = true →
  parse_acls (updated_acls current_acls g p) = delete g (parse_acls current_acls) ∧
  parse_acls (updated_acls current_acls g p) !! g = None ∧
  (∀ h, h ≠ g →
        parse_acls (updated_acls current_acls g p) !! h = parse_acls current_acls !! h).
Proof.
  intros Hg Hp Hp'. rewrite parse_updated by assumption.
  split; [reflexivity|]. split; [apply lookup_delete_eq|].
  intros h Hne. by apply lookup_delete_ne.
Qed.

Lemma merge_hides_the_grant_from_the_codec_witness :
  acl_safe "g1" = true ∧ char_free "," "rwx" = true ∧ char_free ":" "rwx" = true ∧
  parse_acls (updated_acls "group:g1:0:r-x,group:g2:0:rwx" "g1" "rwx")
  = delete "g1" (parse_acls "group:g1:0:r-x,group:g2:0:rwx").
Proof.
  repeat (split; [reflexivity|]).
  exact (proj1 (merge_hides_the_grant_from_the_codec
                  "group:g1:0:r-x,group:g2:0:rwx" "g1" "rwx" eq_refl eq_refl eq_refl)).
Defined.

(** X4.  The last merge for an identity wins: merging a second entry for
    the same identity gives the text that merging it alone would have
    given, and merging the same entry again changes nothing. *)
Theorem merge_last_write_wins current_acls g p q :
  char_free "," g = true → char_free "," p = true →
  updated_acls (updated_acls current_acls g p) g q = updated_acls current_acls g q ∧
  updated_acls (updated_acls current_acls g p) g p = updated_acls current_acls g p.
Proof. intros Hg Hp. split; by apply updated_acls_again. Qed.

Lemma merge_last_write_wins_witness :
  char_free "," "g1" = true ∧ char_free "," "r-x" = true ∧
  updated_acls (updated_acls "user::rwx,group:g1:0:r-x" "g1" "r-x") "g1" "rwx"
  = "user::rwx,group:g1:rwx".
Proof.
  repeat (split; [reflexivity|]).
  rewrite (proj1 (merge_last_write_wins "user::rwx,group:g1:0:r-x" "g1" "r-x" "rwx"
                   eq_refl eq_refl)).
  reflexivity.
Defined.

(** X5.  Merges for two different identities can be done in either
    order: both texts keep the same old entries in the same order and end
    with the two new entries, which only swap places. *)
Theorem merges_of_two_identities_commute current_acls g p h q :
  acl_safe g = true → acl_safe h = true → g ≠ h →
  char_free "," p = true → char_free "," q = true →
  ∃ kept_entries,
    entries (updated_acls (updated_acls current_acls g p) h q)
    = kept_entries ++ [new_acl g p; new_acl h q] ∧
    entries (updated_acls (updated_acls current_acls h q) g p)
    = kept_entries ++ [new_acl h q; new_acl g p] ∧
    (∀ e, In e kept_entries ↔
          In e (entries current_acls) ∧
          startswith e (entry_prefix g) = false ∧ startswith e (entry_prefix h) = false).
Proof.
  intros Hg Hh Hne Hp Hq.
  exists (List.filter (λ acl, negb (startswith acl (entry_prefix h)))
            (List.filter (λ acl, negb (startswith acl (entry_prefix g)))
               (entries current_acls))).
  split; [by apply entries_updated_twice|]. split.
  - rewrite filter_comm. by apply entries_updated_twice.
  - intros e. rewrite !List.filter_In, !negb_true_iff. tauto.
Qed.

Lemma merges_of_two_identities_commute_witness :
  acl_safe "g1" = true ∧ acl_safe "g2" = true ∧ "g1" ≠ "g2" ∧
  ∃ kept_entries,
    entries (updated_acls (updated_acls "user::rwx,group:g2:r-x" "g1" "rwx") "g2" "--x")
    = kept_entries ++ [new_acl "g1" "rwx"; new_acl "g2" "--x"].
Proof.
  assert (Hne : "g1" ≠ "g2") by discriminate.
  split; [reflexivity|]. split; [reflexivity|]. split; [exact Hne|].
  destruct (merges_of_two_identities_commute "user::rwx,group:g2:r-x" "g1" "rwx" "g2" "--x"
              eq_refl eq_refl Hne eq_refl eq_refl)
    as (kept_entries & H1 & _ & _).
  exists kept_entries. exact H1.
Defined.

(** X6.  The backup of a path writes one row per entry the codec would
    read on it: a row for group id [g] with permissions [v] is written
    exactly when an entry of the ACL text binds [g] to [v], so every
    binding of [parse_acls] has its row; the path column reads root for
    the empty path. *)
Theorem backup_rows_cover_the_codec storage_account_name container_name p current_acls g v :
  (In [storage_account_name; container_name; or_root p; g; v]
      (backup_rows storage_account_name container_name p current_acls)
   ↔ ∃ entry, In entry (split "," current_acls) ∧ binds entry g v) ∧
  (parse_acls current_acls !! g = Some v →
   In [storage_account_name; container_name; or_root p; g; v]
      (backup_rows storage_account_name container_name p current_acls)) ∧
  (∀ line, In line (backup_rows storage_account_name container_name p current_acls) →
           ∃ g' v', line = [storage_account_name; container_name;
                            if is_empty p then "root" else p; g'; v']).
Proof.
  assert (Hiff : In [storage_account_name; container_name; or_root p; g; v]
                    (backup_rows storage_account_name container_name p current_acls)
                 ↔ ∃ entry, In entry (split "," current_acls) ∧ binds entry g v).
  { rewrite <- entries_binds, backup_rows_In. split.
    - intros (e & He & Hk & [= -> ->]). exists e. split; [assumption|]. by apply binds_iff.
    - intros (e & He & (Hk & <- & <-)%binds_iff). by exists e. }
  split; [exact Hiff|]. split.
  - intros Hparse. apply Hiff.
    rewrite parse_acls_entries in Hparse.
    apply parse_fold_lookup in Hparse as [(before & e & after & Heq & Hb & _)|[Hm _]].
    + apply entries_binds. exists e. split; [|assumption].
      rewrite Heq. apply in_elt.
    + by rewrite lookup_empty in Hm.
  - intros line (e & _ & _ & ->)%backup_rows_In. by eexists _, _.
Qed.


(** X8.  A request adds at most its own storage account to the cache of
    service clients and removes none: the account is cached after every
    request that found or built a client, also a skipped one, and a
    request that could not build its client leaves the whole state as it
    was. *)
Theorem service_clients_only_grow graph_client client_ok row w :
  let r := apply_acls_to_path graph_client client_ok row w in
  w_service_clients w ⊆ w_service_clients (world_of r) ∧
  w_service_clients (world_of r) ⊆ {[storage row]} ∪ w_service_clients w ∧
  (client_ready client_ok row w = true → storage row ∈ w_service_clients (world_of r)) ∧
  (client_ready client_ok row w = true → client_ready client_ok row (world_of r) = true) ∧
  (client_ready client_ok row w = false → world_of r = w).
Proof.
  cbn zeta. pose proof (apply_clients graph_client client_ok row w) as Hclients.
  destruct (client_ready client_ok row w) eqn:Hc; rewrite Hclients.
  - split; [apply union_subseteq_r|]. split; [done|].
    assert (Hin : storage row ∈ {[storage row]} ∪ w_service_clients w).
    { apply elem_of_union. left. by apply elem_of_singleton. }
    split; [done|]. split; [|done]. intros _.
    unfold client_ready. rewrite Hclients. by rewrite bool_decide_eq_true_2.
  - split; [done|]. split; [apply union_subseteq_r|]. split; [done|]. split; [done|].
    intros _.
    destruct (apply_shape graph_client client_ok row w)
      as [(_ & ->)|[(Hc' & _)|[(Hc' & _)|(gid & env & (Hc' & _) & _)]]];
      [reflexivity|congruence..].
Qed.

Lemma service_clients_only_grow_witness :
  client_ready always_ok unknown_group_row empty_world = true ∧
  "acct1" ∈ w_service_clients
              (world_of (apply_acls_to_path sample_directory always_ok
                           unknown_group_row empty_world)).
Proof.
  split; [reflexivity|].
  destruct (service_clients_only_grow sample_directory always_ok unknown_group_row
              empty_world) as (_ & _ & Hin & _).
  exact (Hin eq_refl).
Defined.



(** X10.  After a processed request the target and every ancestor exist.
    A directory is created exactly when it is the target or an ancestor
    and was missing, and every directory the request creates gets its
    ACL written by the same request. *)
Theorem created_directories_get_an_acl graph_client client_ok row w gid env :
  resolves graph_client client_ok row w gid env →
  let r := apply_acls_to_path graph_client client_ok row w in
  (∀ k, touches row k → is_Some (w_storage (world_of r) !! k)) ∧
  (∀ p, In (CreateDirectory p) (calls_of r) ↔
        (p = relative_of row ∨ In p (parents_of row)) ∧ w_storage w !! key_of row p = None) ∧
  (∀ p, In (CreateDirectory p) (calls_of r) → written (calls_of r) p).
Proof.
  intros Hres r. subst r. split; [|split].
  - intros k. apply (run_touched_exists _ _ _ _ _ _ Hres).
  - intros p. apply (run_create_calls _ _ _ _ _ _ Hres).
  - intros p. apply (run_created_written _ _ _ _ _ _ Hres).
Qed.

Lemma created_directories_get_an_acl_witness :
  resolves sample_directory always_ok (sample_row "data/team/reports" "R" "false")
           (world_with "team" "group:p1:0:--x") "a1" "p1" ∧
  written (calls_of (apply_acls_to_path sample_directory always_ok
                       (sample_row "data/team/reports" "R" "false")
                       (world_with "team" "group:p1:0:--x"))) "team/reports".
Proof.
  assert (Hres : resolves sample_directory always_ok
                   (sample_row "data/team/reports" "R" "false")
                   (world_with "team" "group:p1:0:--x") "a1" "p1")
    by (repeat split).
  split; [exact Hres|].
  destruct (created_directories_get_an_acl _ _ _ _ _ _ Hres) as (_ & Hcreate & Hwritten).
  apply Hwritten, Hcreate. split; [by left|reflexivity].
Defined.

(** X11.  A write keeps what it does not replace: on the target, the
    text committed holds every old entry that does not begin with
    [group:<id>:], in the old order, followed by the new entry of the
    group, and the same on each ancestor for the environment group; a
    directory that is not written reads as before.  Object ids are free
    of [,]. *)
Theorem other_entries_survive graph_client client_ok row w gid env :
  resolves graph_client client_ok row w gid env →
  char_free "," gid = true →
  char_free "," env = true →
  let r := apply_acls_to_path graph_client client_ok row w in
  (∀ p id before,
      p = relative_of row ∧ id = gid ∨ In p (parents_of row) ∧ id = env →
      before = default "" (w_storage w !! key_of row p) →
      (written (calls_of r) p →
       ∃ acl perm, w_storage (world_of r) !! key_of row p = Some acl ∧
                   entries acl =
                     List.filter (λ e, negb (startswith e (entry_prefix id))) (entries before)
                     ++ [new_acl id perm]) ∧
      (¬ written (calls_of r) p →
       w_storage (world_of r) !! key_of row p = w_storage w !! key_of row p)).
Proof.
  intros Hres Hgid Henv r p id before [[-> ->]|[Hp ->]] ->; subst r.
  - fold (current_acls_of row w).
    rewrite (target_written_iff _ _ _ _ _ _ Hres), (target_final _ _ _ _ _ _ Hres).
    destruct (target_should_update _ _ _ _) eqn:Hup; split; try done.
    + intros _. eexists _, (parse_permission (permission row)). split; [reflexivity|].
      apply entries_updated; [assumption|apply parse_permission_safe].
    + intros _. symmetry. by eapply target_skipped_existed.
  - rewrite (parent_written_iff _ _ _ _ _ _ Hres p Hp), (parent_final _ _ _ _ _ _ Hres p Hp).
    destruct (parent_should_update _ _ _) eqn:Hup; split; try done.
    + intros _. eexists _, "--x". split; [reflexivity|]. by apply entries_updated.
    + intros _. symmetry. by eapply parent_skipped_existed.
Qed.

Lemma other_entries_survive_witness :
  resolves sample_directory always_ok (sample_row "data/team" "W" "false")
           (world_with "team" "user::rwx,group:a1:0:r-x,group:x9:0:rwx") "a1" "p1" ∧
  char_free "," "a1" = true ∧ char_free "," "p1" = true ∧
  w_storage (world_of (apply_acls_to_path sample_directory always_ok
                         (sample_row "data/team" "W" "false")
                         (world_with "team" "user::rwx,group:a1:0:r-x,group:x9:0:rwx")))
    !! ("acct1", "data", "team") = Some "user::rwx,group:x9:0:rwx,group:a1:rwx" ∧
  ∃ acl perm,
    w_storage (world_of (apply_acls_to_path sample_directory always_ok
                           (sample_row "data/team" "W" "false")
                           (world_with "team" "user::rwx,group:a1:0:r-x,group:x9:0:rwx")))
      !! ("acct1", "data", "team") = Some acl ∧
    entries acl = ["user::rwx"; "group:x9:0:rwx"] ++ [new_acl "a1" perm].
Proof.
  assert (Hres : resolves sample_directory always_ok (sample_row "data/team" "W" "false")
                   (world_with "team" "user::rwx,group:a1:0:r-x,group:x9:0:rwx") "a1" "p1")
    by (repeat split).
  split; [exact Hres|]. split; [reflexivity|]. split; [reflexivity|].
  split; [by vm_compute|].
  destruct (other_entries_survive _ _ _ _ _ _ Hres eq_refl eq_refl "team" "a1"
              "user::rwx,group:a1:0:r-x,group:x9:0:rwx") as (Hwritten & _).
  - left. by split.
  - reflexivity.
  - apply Hwritten. exists "user::rwx,group:x9:0:rwx,group:a1:rwx", ModeModify.
    vm_compute. auto.
Defined.

(** X12.  With forceUpdate true nothing is skipped: the target and every
    ancestor are written, the target with the new entry of the group in
    place of its old ones, each ancestor with the traversal entry of the
    environment group. *)
Theorem force_update_writes_everything graph_client client_ok row w gid env :
  resolves graph_client client_ok row w gid env →
  force_update_of row = true →
  let r := apply_acls_to_path graph_client client_ok row w in
  written (calls_of r) (relative_of row) ∧
  w_storage (world_of r) !! key_of row (relative_of row)
  = Some (updated_acls (current_acls_of row w) gid (parse_permission (permission row))) ∧
  (∀ p, In p (parents_of row) →
        In (SetAccessControlRecursive p
              (updated_acls (default "" (w_storage w !! key_of row p)) env "--x") ModeSet)
           (calls_of r) ∧
        w_storage (world_of r) !! key_of row p
        = Some (updated_acls (default "" (w_storage w !! key_of row p)) env "--x")).
Proof.
  intros Hres Hforce r. subst r.
  assert (Ht : target_should_update (current_acls_of row w) gid (permission row)
                 (force_update_of row) = true).
  { unfold target_should_update. by rewrite Hforce. }
  assert (Hp : ∀ p, parent_should_update (default "" (w_storage w !! key_of row p)) env
                      (force_update_of row) = true).
  { intros p. unfold parent_should_update. rewrite Hforce. apply orb_true_r. }
  split; [by apply (target_written_iff _ _ _ _ _ _ Hres)|]. split.
  - by rewrite (target_final _ _ _ _ _ _ Hres), Ht.
  - intros p Hin. split.
    + apply (run_set_calls _ _ _ _ _ _ Hres). right. done.
    + by rewrite (parent_final _ _ _ _ _ _ Hres p Hin), Hp.
Qed.

Lemma force_update_writes_everything_witness :
  resolves sample_directory always_ok (sample_row "data/team/reports" "R" "TRUE")
           (world_with "team/reports" "group:a1:0:rwx") "a1" "p1" ∧
  force_update_of (sample_row "data/team/reports" "R" "TRUE") = true ∧
  written (calls_of (apply_acls_to_path sample_directory always_ok
                       (sample_row "data/team/reports" "R" "TRUE")
                       (world_with "team/reports" "group:a1:0:rwx")))
          (relative_of (sample_row "data/team/reports" "R" "TRUE")).
Proof.
  assert (Hres : resolves sample_directory always_ok
                   (sample_row "data/team/reports" "R" "TRUE")
                   (world_with "team/reports" "group:a1:0:rwx") "a1" "p1")
    by (repeat split).
  split; [exact Hres|]. split; [reflexivity|].
  exact (proj1 (force_update_writes_everything _ _ _ _ _ _ Hres eq_refl)).
Defined.

(** X13.  A request with permission ["W"] and forceUpdate false escalates
    every grant the codec reads that is not [rwx] - also a missing one -
    by committing [group:<id>:rwx] on the target, and issues no write on
    a target where it reads [rwx], which stays as it is. *)
Theorem write_request_escalates graph_client client_ok row w gid env :
  resolves graph_client client_ok row w gid env →
  permission row = "W" →
  force_update_of row = false →
  let r := apply_acls_to_path graph_client client_ok row w in
  (current_perm_of row w gid ≠ "rwx" →
   In (SetAccessControlRecursive (relative_of row)
         (updated_acls (current_acls_of row w) gid "rwx")
         (if force_propagation_of row then ModeSet else ModeModify))
      (calls_of r) ∧
   w_storage (world_of r) !! key_of row (relative_of row)
   = Some (updated_acls (current_acls_of row w) gid "rwx")) ∧
  (current_perm_of row w gid = "rwx" →
   ¬ written (calls_of r) (relative_of row) ∧
   w_storage (world_of r) !! key_of row (relative_of row)
   = w_storage w !! key_of row (relative_of row)).
Proof.
  intros Hres Hperm Hforce r. subst r.
  assert (Hup : target_should_update (current_acls_of row w) gid (permission row)
                  (force_update_of row)
                = negb (String.eqb (current_perm_of row w gid) "rwx")).
  { unfold target_should_update. fold (current_perm_of row w gid).
    rewrite Hforce, Hperm. cbn [orb andb String.eqb Ascii.eqb Bool.eqb].
    destruct (current_perm_of row w gid) as [|a s] eqn:Hcur; [reflexivity|].
    cbn [is_empty orb]. reflexivity. }
  assert (Hrwx : parse_permission (permission row) = "rwx") by (by rewrite Hperm).
  split.
  - intros Hcur%String.eqb_neq. rewrite Hcur in Hup. cbn [negb] in Hup. split.
    + apply (run_set_calls _ _ _ _ _ _ Hres). left. by rewrite Hrwx.
    + by rewrite (target_final _ _ _ _ _ _ Hres), Hup, Hrwx.
  - intros Hcur%String.eqb_eq. rewrite Hcur in Hup. cbn [negb] in Hup. split.
    + by rewrite (target_written_iff _ _ _ _ _ _ Hres), Hup.
    + rewrite (target_final _ _ _ _ _ _ Hres), Hup.
      symmetry. by eapply target_skipped_existed.
Qed.

Lemma write_request_escalates_witness :
  resolves sample_directory always_ok (sample_row "data/team" "W" "false")
           (world_with "team" "group:a1:0:r-x") "a1" "p1" ∧
  permission (sample_row "data/team" "W" "false") = "W" ∧
  force_update_of (sample_row "data/team" "W" "false") = false ∧
  w_storage (world_of (apply_acls_to_path sample_directory always_ok
                         (sample_row "data/team" "W" "false")
                         (world_with "team" "group:a1:0:r-x")))
    !! key_of (sample_row "data/team" "W" "false")
              (relative_of (sample_row "data/team" "W" "false"))
  = Some (updated_acls (current_acls_of (sample_row "data/team" "W" "false")
                          (world_with "team" "group:a1:0:r-x")) "a1" "rwx").
Proof.
  assert (Hres : resolves sample_directory always_ok (sample_row "data/team" "W" "false")
                   (world_with "team" "group:a1:0:r-x") "a1" "p1")
    by (repeat split).
  split; [exact Hres|]. split; [reflexivity|]. split; [reflexivity|].
  destruct (write_request_escalates _ _ _ _ _ _ Hres eq_refl eq_refl) as (Hesc & _).
  apply Hesc. vm_compute. discriminate.
Defined.



(** X15.  Slashes around the path cell do not count: a request whose path
    has any number of slashes put before and after it ends the same way,
    issues the same calls and leaves the same state; a path of slashes
    only is the empty path. *)
Theorem outer_slashes_are_ignored graph_client client_ok row w n m :
  apply_acls_to_path graph_client client_ok
    (with_path row (slashes n +:+ path row +:+ slashes m)) w
  = apply_acls_to_path graph_client client_ok row w.
Proof.
  unfold apply_acls_to_path. cbn [with_path storage force_update force_propagation
    group_name environment permission path].
  unfold path_parts_of. by rewrite strip_outer_slashes.
Qed.

(** X16.  The path cell splits into a container and a path in it: without
    the slashes around it, the cell is the container name alone or the
    container name, a slash and the relative path.  The container name
    holds no slash; the relative path is empty exactly when the cell has a
    single segment, and there are no ancestors then; every ancestor is
    followed in the relative path by a slash and the rest of it. *)
Theorem path_is_container_and_relative row :
  strip "/" (path row) =
    (if is_empty (relative_of row) then container_of row
     else container_of row +:+ "/" +:+ relative_of row) ∧
  char_free "/" (container_of row) = true ∧
  (is_empty (relative_of row) = true ↔ length (path_parts_of (path row)) = 1) ∧
  (is_empty (relative_of row) = true → parents_of row = []) ∧
  (∀ p, In p (parents_of row) → ∃ rest, relative_of row = p +:+ "/" +:+ rest).
Proof.
  unfold relative_of, container_of, parents_of.
  pose proof (relative_empty_single (path row)) as Hsingle.
  pose proof (join_split "/" (strip "/" (path row))) as Hjoin.
  fold (path_parts_of (path row)) in Hjoin.
  pose proof (path_parts_not_nil (path row)) as Hnil.
  split; [|split; [|split; [exact Hsingle|split]]].
  - destruct (is_empty _) eqn:Hrel.
    + apply (relative_empty_single (path row)) in Hrel.
      destruct (path_parts_of (path row)) as [|c [|x rest]]; try done.
    + rewrite relative_path_spec.
      destruct (path_parts_of (path row)) as [|c [|x rest]] eqn:Hparts; done.
  - unfold path_parts_of in *.
    destruct (split "/" (strip "/" (path row))) as [|c rest] eqn:Hparts; [done|].
    cbn [container_name_of]. by eapply split_head_free.
  - intros Hrel%Hsingle. unfold parent_paths_of. by rewrite Hrel.
  - intros p Hp. by apply parent_is_prefix.
Qed.





(** X19.  Columns other than the seven are not read: giving every row a
    cell under another column name, whatever its content, does not
    change the batch. *)
Theorem other_columns_are_ignored graph_client client_ok rows st file k
    (v : gmap string string → string) :
  ¬ In k required_columns →
  process_csv graph_client client_ok (map (λ row, <[k := v row]> row) rows) st file
  = process_csv graph_client client_ok rows st file.
Proof.
  intros Hk. unfold process_csv.
  rewrite filter_map_insert by assumption. by apply run_tasks_map_insert.
Qed.

Lemma other_columns_are_ignored_witness :
  ¬ In "comment" required_columns ∧
  process_csv sample_directory always_ok
    (map (λ row, <["comment" := "asked by the data team"]> row) [sample_dict]) ∅ []
  = process_csv sample_directory always_ok [sample_dict] ∅ [].
Proof.
  assert (Hk : ¬ In "comment" required_columns).
  { cbn. intros [H|[H|[H|[H|[H|[H|[H|[]]]]]]]]; discriminate H. }
  split; [exact Hk|].
  exact (other_columns_are_ignored sample_directory always_ok [sample_dict] ∅ []
           "comment" (λ _, "asked by the data team") Hk).
Defined.



